(** * orbit C++ client: request builder and incremental SSE parser

    A shallow embedding of [clients/cpp/src/api_client.cpp] and
    [clients/cpp/include/orbit/api_client.hpp], followed by the properties
    of the request builder ([endpoint], the JSON body, the header list) and of
    the line-buffered response parser ([on_write]).

    Conventions of the embedding:
    - a [std::string] is a [list ascii] (a sequence of bytes, NUL allowed);
    - [std::string::npos] is [None];
    - positions inside a string are [nat]: every position the code computes is
      bounded by the length of the string it indexes, so the 64-bit [size_t]
      arithmetic on them never wraps; the one product the code takes of two
      caller-supplied [size_t] values, [size * nmemb], is modelled in [N]
      with its reduction modulo [2^64] written out;
    - a C++ exception is the outcome [Throw]; [OutOfFuel] is the outcome of
      a loop of the embedding that was given too little fuel, and is shown
      below never to occur;
    - the callback stored in [WriteCtx] is represented by the trace of the
      units it was invoked with; [on_write] and [stream_chat] are the code
      run with a callback that returns normally each time, and
      [on_write_with] and [stream_chat_with] are the same code run with any
      callback, empty or throwing ones included;
    - libcurl is represented by what it does to the client during one call:
      see [Transport]. *)

From Stdlib Require Import Ascii String.
From Stdlib Require Import List Arith NArith Bool Lia.
Import ListNotations.

Local Open Scope list_scope.

(** ** Bytes and literals *)

Definition lit (s : string) : list ascii := list_ascii_of_string s.

Definition NUL : ascii := "000"%char.
Definition LF : ascii := "010"%char.
Definition CR : ascii := "013"%char.
Definition DQUOTE : ascii := "034"%char.
Definition SLASH : ascii := "/"%char.
Definition BACKSLASH : ascii := "\"%char.

(** [quoted s] is the C++ literal [s] written between two double quotes. *)
Definition quoted (s : string) : list ascii := DQUOTE :: lit s ++ [DQUOTE].

Definition str_eqb (a b : list ascii) : bool :=
  if list_eq_dec ascii_dec a b then true else false.

(** ** The fragment of [std::string] the client uses *)

Module StdString.

(** [prefixb p s]: the bytes of [p] are the first bytes of [s]
    ([traits_type::compare(data, p, n) == 0]). *)
Fixpoint prefixb (p s : list ascii) : bool :=
  match p, s with
  | [], _ => true
  | _ :: _, [] => false
  | a :: p', b :: s' => Ascii.eqb a b && prefixb p' s'
  end.

(** First index of the byte [c] in [s], counted from the head of [s]. *)
Fixpoint index_char (c : ascii) (s : list ascii) : option nat :=
  match s with
  | [] => None
  | x :: s' => if Ascii.eqb x c then Some 0 else option_map S (index_char c s')
  end.

(** First index at which [pat] occurs in [s], counted from the head. *)
Fixpoint index_str (pat s : list ascii) : option nat :=
  if prefixb pat s then Some 0
  else match s with
       | [] => None
       | _ :: s' => option_map S (index_str pat s')
       end.

(** [s.find(c, pos)] *)
Definition find_char (s : list ascii) (c : ascii) (pos : nat) : option nat :=
  option_map (Nat.add pos) (index_char c (skipn pos s)).

(** [s.find(pat, pos)] *)
Definition find (s pat : list ascii) (pos : nat) : option nat :=
  if pos <=? length s
  then option_map (Nat.add pos) (index_str pat (skipn pos s))
  else None.

(** The descending scan of [rfind]: try [pos], then [pos - 1], ... , 0. *)
Fixpoint rfind_down (s pat : list ascii) (pos : nat) : option nat :=
  if prefixb pat (skipn pos s) then Some pos
  else match pos with
       | 0 => None
       | S p => rfind_down s pat p
       end.

(** [s.rfind(pat, pos)]; [pos = None] is the default argument [npos]. *)
Definition rfind (s pat : list ascii) (pos : option nat) : option nat :=
  if length pat <=? length s
  then
    let last_start := length s - length pat in
    rfind_down s pat
      (match pos with
       | None => last_start
       | Some p => Nat.min last_start p
       end)
  else None.

Definition empty (s : list ascii) : bool :=
  match s with [] => true | _ :: _ => false end.

(** [s.back()], only called on a non-empty string. *)
Definition back (s : list ascii) : ascii := last s NUL.

(** [s.c_str()] as its reader sees it: the bytes before the first NUL. *)
Fixpoint c_str (s : list ascii) : list ascii :=
  match s with
  | [] => []
  | x :: s' => if Ascii.eqb x NUL then [] else x :: c_str s'
  end.

End StdString.

(** ** Exceptions and the state of one transfer *)

Inductive exn : Type :=
| out_of_range
| runtime_error (what : string)
| bad_function_call
| callback_exception (what : string).

Inductive result (A : Type) : Type :=
| Ok (a : A)
| Throw (e : exn)
| OutOfFuel.

Arguments Ok {A} a.
Arguments Throw {A} e.
Arguments OutOfFuel {A}.

(** [struct StreamResponse { std::string text; bool done{false}; }] *)
Record StreamResponse : Type := mkStreamResponse {
  text : list ascii;
  done : bool
}.

(** [struct WriteCtx { std::function<...> cb; std::string buffer; }].
    The field [cb] is represented by [cb_calls], the units the callback has
    been invoked with so far, oldest first. *)
Record WriteCtx : Type := mkWriteCtx {
  cb_calls : list StreamResponse;
  buffer : list ascii
}.

(** Computations that read and write a [WriteCtx] and may throw. The state
    reached when an exception is thrown is kept: callbacks already made are
    not undone by unwinding. *)
Definition M (A : Type) : Type := WriteCtx -> result A * WriteCtx.

Definition ret {A : Type} (a : A) : M A := fun ctx => (Ok a, ctx).

Definition bind {A B : Type} (m : M A) (k : A -> M B) : M B :=
  fun ctx =>
    match m ctx with
    | (Ok a, ctx') => k a ctx'
    | (Throw e, ctx') => (Throw e, ctx')
    | (OutOfFuel, ctx') => (OutOfFuel, ctx')
    end.

Definition throw {A : Type} (e : exn) : M A := fun ctx => (Throw e, ctx).
Definition out_of_fuel {A : Type} : M A := fun ctx => (OutOfFuel, ctx).

Declare Scope transfer_scope.
Delimit Scope transfer_scope with transfer.
Notation "x <- m ;; k" := (bind m (fun x => k))
  (at level 61, m at next level, right associativity) : transfer_scope.
Notation "m ;; k" := (bind m (fun _ => k))
  (at level 61, right associativity) : transfer_scope.
Local Open Scope transfer_scope.

Definition get_buffer : M (list ascii) := fun ctx => (Ok (buffer ctx), ctx).

Definition set_buffer (b : list ascii) : M unit :=
  fun ctx => (Ok tt, {| cb_calls := cb_calls ctx; buffer := b |}).

(** [ctx->cb(r)] *)
Definition call_cb (r : StreamResponse) : M unit :=
  fun ctx => (Ok tt, {| cb_calls := cb_calls ctx ++ [r]; buffer := buffer ctx |}).

(** [s.substr(pos, n)]: throws [std::out_of_range] when [pos > s.size()];
    [n = None] is the default argument [npos]. *)
Definition substr (s : list ascii) (pos : nat) (n : option nat) : M (list ascii) :=
  if pos <=? length s
  then ret (match n with
            | None => skipn pos s
            | Some k => firstn k (skipn pos s)
            end)
  else throw out_of_range.

(** ** [on_write] *)

Definition size_t_modulus : N := 2 ^ 64.

(** Multiplication of two [size_t] values. *)
Definition size_t_mul (a b : N) : N := ((a * b) mod size_t_modulus)%N.

Definition data_prefix : list ascii := lit "data: ".
Definition done_sentinel : list ascii := lit "[DONE]".
Definition response_key : list ascii := quoted "response" ++ lit ":".

(** The statements guarded by [if (line.rfind("data: ", 0) == 0)], from the
    test of the sentinel to the fallback: what is done with [payload]. *)
Definition on_write_payload (payload : list ascii) : M unit :=
  if str_eqb payload done_sentinel || StdString.empty payload
  then call_cb {| text := []; done := true |}
  else
    let key := response_key in
    match StdString.find payload key 0 with
    | Some kpos =>
        match StdString.find_char payload DQUOTE (kpos + length key) with
        | Some start =>
            match StdString.find_char payload DQUOTE (start + 1) with
            | Some end_ =>
                t <- substr payload (start + 1) (Some (end_ - start - 1)) ;;
                call_cb {| text := t; done := false |}
            | None => ret tt
            end
        | None => ret tt
        end
    | None => call_cb {| text := payload; done := false |}
    end.

(** What one iteration of the loop does with [line]. *)
Definition on_write_line (line : list ascii) : M unit :=
  match StdString.rfind line data_prefix (Some 0) with
  | Some 0 =>
      payload <- substr line 6 None ;;
      on_write_payload payload
  | _ => ret tt
  end.

(** The [for (;;)] loop; the value returned is [pos] at the [break]. Each
    iteration moves [pos] past one newline of the buffer, so [fuel] bounds the
    number of newlines still to be found. *)
Fixpoint on_write_loop (fuel : nat) (pos : nat) : M nat :=
  match fuel with
  | 0 => out_of_fuel
  | S fuel' =>
      b <- get_buffer ;;
      match StdString.find_char b LF pos with
      | None => ret pos
      | Some nl =>
          line <- substr b pos (Some (nl - pos)) ;;
          on_write_line line ;;
          on_write_loop fuel' (nl + 1)
      end
  end.

(** [on_write(ptr, size, nmemb, userdata)]: [ptr] holds the bytes the
    transport hands over, of which the first [size * nmemb] are appended. *)
Definition on_write (ptr : list ascii) (size nmemb : N) : M N :=
  let total := size_t_mul size nmemb in
  b <- get_buffer ;;
  set_buffer (b ++ firstn (N.to_nat total) ptr) ;;
  b <- get_buffer ;;
  pos <- on_write_loop (S (length b)) 0 ;;
  b <- get_buffer ;;
  rest <- substr b pos None ;;
  set_buffer rest ;;
  ret total.

(** ** The request builder *)

(** [class ApiClient]: the three private members set by the constructor. *)
Record ApiClient : Type := mkApiClient {
  api_url_ : list ascii;
  api_key_ : list ascii;
  session_id_ : list ascii
}.

Definition chat_path : list ascii := lit "/v1/chat".

(** [ApiClient::endpoint]. The comparison [rfind(...) == size() - 8] is
    only evaluated when [size() >= 8], so the subtraction does not wrap, and
    [npos] is not a value [size() - 8] can take. *)
Definition endpoint (self : ApiClient) : list ascii :=
  let u := api_url_ self in
  if (8 <=? length u)
     && match StdString.rfind u chat_path None with
        | Some i => i =? length u - 8
        | None => false
        end
  then u
  else if negb (StdString.empty u) && Ascii.eqb (StdString.back u) SLASH
  then u ++ lit "v1/chat"
  else u ++ lit "/v1/chat".

(** One iteration of [for (char c : message)]: what is written to the
    [std::ostringstream] whose content so far is [os]. *)
Definition escape_step (os : list ascii) (c : ascii) : list ascii :=
  if Ascii.eqb c BACKSLASH then os ++ [BACKSLASH; BACKSLASH]
  else if Ascii.eqb c DQUOTE then os ++ [BACKSLASH; DQUOTE]
  else if Ascii.eqb c LF then os ++ [BACKSLASH; "n"%char]
  else os ++ [c].

(** The escaping loop run on an empty stream: the escaped message. *)
Definition escape (message : list ascii) : list ascii :=
  fold_left escape_step message [].

(** The [std::string payload] that [stream_chat] builds from [os.str()]. *)
Definition request_body (message : list ascii) (stream : bool) : list ascii :=
  let os := [] in
  let os := os ++ (lit "{" ++ quoted "messages" ++ lit ":[{" ++ quoted "role"
                   ++ lit ":" ++ quoted "user" ++ lit "," ++ quoted "content"
                   ++ lit ":") in
  let os := fold_left escape_step message os in
  let os := os ++ (lit "}]," ++ quoted "stream" ++ lit ":") in
  let os := os ++ (if stream then lit "true" else lit "false") in
  os ++ lit "}".

(** [curl_slist_append(list, data)]: a copy of the C string [data] is added
    at the end of the list. *)
Definition curl_slist_append (l : list (list ascii)) (data : list ascii)
  : list (list ascii) := l ++ [data].

(** The [curl_slist] that [stream_chat] passes as [CURLOPT_HTTPHEADER]. *)
Definition request_headers (self : ApiClient) (stream : bool) : list (list ascii) :=
  let headers := [] in
  let headers := curl_slist_append headers (lit "Content-Type: application/json") in
  let headers := curl_slist_append headers
                   (if stream then lit "Accept: text/event-stream"
                    else lit "Accept: application/json") in
  let headers :=
    if negb (StdString.empty (api_key_ self))
    then curl_slist_append headers
           (StdString.c_str (lit "X-API-Key: " ++ api_key_ self))
    else headers in
  let headers :=
    if negb (StdString.empty (session_id_ self))
    then curl_slist_append headers
           (StdString.c_str (lit "X-Session-ID: " ++ session_id_ self))
    else headers in
  headers.

(** ** The transport and [stream_chat] *)

Definition CURLcode : Type := N.
Definition CURLE_OK : CURLcode := 0%N.
Definition CURLE_WRITE_ERROR : CURLcode := 23%N.

(** What libcurl does during one call of [stream_chat], seen from the client:
    whether [curl_easy_init] returns a handle, the chunks of the response body
    it hands to the write callback, in order, and the code with which
    [curl_easy_perform] completes when no write callback refuses its chunk. *)
Record Transport : Type := mkTransport {
  easy_init_ok : bool;
  response : list (list ascii);
  completion : CURLcode
}.

(** The options set on the easy handle. *)
Record Request : Type := mkRequest {
  opt_url : list ascii;
  opt_post : N;
  opt_postfields : list ascii;
  opt_httpheader : list (list ascii)
}.

(** libcurl calls the write callback with [size = 1] and [nmemb] the number
    of bytes at [ptr]. *)
Definition write_chunk (chunk : list ascii) : M N :=
  on_write chunk 1 (N.of_nat (length chunk)).

(** Delivery of the body: a callback that returns anything but the number of
    bytes it was given stops the transfer. The result tells whether every
    chunk was accepted. *)
Fixpoint deliver (chunks : list (list ascii)) : M bool :=
  match chunks with
  | [] => ret true
  | chunk :: rest =>
      n <- write_chunk chunk ;;
      if (n =? N.of_nat (length chunk))%N then deliver rest else ret false
  end.

Definition curl_easy_perform (t : Transport) : M CURLcode :=
  accepted <- deliver (response t) ;;
  ret (if accepted then completion t else CURLE_WRITE_ERROR).

(** The observable result of one call of [stream_chat]: how it ends, the
    request it configured (none when no handle was obtained), and the units
    [on_chunk] was invoked with, in order. *)
Record Exchange : Type := mkExchange {
  outcome : result unit;
  request : option Request;
  on_chunk_calls : list StreamResponse
}.

(** [ApiClient::stream_chat]. *)
Definition stream_chat (self : ApiClient) (curl : Transport)
    (message : list ascii) (stream : bool) : Exchange :=
  if negb (easy_init_ok curl)
  then {| outcome := Throw (runtime_error "Failed to init curl");
          request := None;
          on_chunk_calls := [] |}
  else
    let url := endpoint self in
    let payload := request_body message stream in
    let headers := request_headers self stream in
    let req := {| opt_url := StdString.c_str url;
                  opt_post := 1%N;
                  opt_postfields := StdString.c_str payload;
                  opt_httpheader := headers |} in
    let ctx := {| cb_calls := []; buffer := [] |} in
    match curl_easy_perform curl ctx with
    | (Ok res, ctx') =>
        {| outcome := if (res =? CURLE_OK)%N then Ok tt
                      else Throw (runtime_error "Request failed");
           request := Some req;
           on_chunk_calls := cb_calls ctx' |}
    | (Throw e, ctx') =>
        {| outcome := Throw e; request := Some req; on_chunk_calls := cb_calls ctx' |}
    | (OutOfFuel, ctx') =>
        {| outcome := OutOfFuel; request := Some req; on_chunk_calls := cb_calls ctx' |}
    end.

(** ** The same code with a callback that may throw *)

(** A [std::function<void(const StreamResponse&)>]: empty, or a target which,
    invoked with a unit after the units it was invoked with before, returns
    ([None]) or throws. *)
Definition Callback : Type :=
  option (list StreamResponse -> StreamResponse -> option exn).

(** [ctx->cb(r)] for the callback [cb]: an empty [std::function] throws
    [std::bad_function_call] without invoking anything; otherwise the target
    is invoked, and what it throws leaves the call. *)
Definition call_cb_with (cb : Callback) (r : StreamResponse) : M unit :=
  fun ctx =>
    match cb with
    | None => (Throw bad_function_call, ctx)
    | Some target =>
        let ctx' := {| cb_calls := cb_calls ctx ++ [r]; buffer := buffer ctx |} in
        match target (cb_calls ctx) r with
        | None => (Ok tt, ctx')
        | Some e => (Throw e, ctx')
        end
    end.









(** A callback that has a target and returns normally whatever it is
    invoked with. *)
Definition returns_always (cb : Callback) : Prop :=
  exists target, cb = Some target /\ forall calls r, target calls r = None.

(** What happens when [cb], invoked before with [calls], is invoked with the
    units [us] one after the other: the exception that ends the sequence, if
    one does, and the units it has then been invoked with. *)
Fixpoint invocations (cb : Callback) (calls us : list StreamResponse)
  : option exn * list StreamResponse :=
  match us with
  | [] => (None, calls)
  | u :: us' =>
      match cb with
      | None => (Some bad_function_call, calls)
      | Some target =>
          match target calls u with
          | None => invocations cb (calls ++ [u]) us'
          | Some e => (Some e, calls ++ [u])
          end
      end
  end.

(** The outcome of that sequence of invocations in the state [ctx]. *)
Definition after_invocations (cb : Callback) (us : list StreamResponse) : M unit :=
  fun ctx =>
    match invocations cb (cb_calls ctx) us with
    | (None, calls) => (Ok tt, {| cb_calls := calls; buffer := buffer ctx |})
    | (Some e, calls) => (Throw e, {| cb_calls := calls; buffer := buffer ctx |})
    end.

(** ** Notions used to state the properties *)

Definition ctx_empty : WriteCtx := {| cb_calls := []; buffer := [] |}.

(** [ctx] after the callback has been invoked with each unit of [us]. *)
Definition emit (ctx : WriteCtx) (us : list StreamResponse) : WriteCtx :=
  {| cb_calls := cb_calls ctx ++ us; buffer := buffer ctx |}.

(** The units the callback receives for one payload, and for one line. *)
Definition payload_units (payload : list ascii) : list StreamResponse :=
  cb_calls (snd (on_write_payload payload ctx_empty)).

Definition line_units (line : list ascii) : list StreamResponse :=
  cb_calls (snd (on_write_line line ctx_empty)).

Definition starts_with (s p : list ascii) : Prop := exists r, s = p ++ r.
Definition ends_with (s p : list ascii) : Prop := exists a, s = a ++ p.

(** [pat] occurs in [s] right after [pre], and nowhere earlier. *)
Definition first_occurrence (pat s pre : list ascii) : Prop :=
  (exists post, s = pre ++ pat ++ post) /\
  forall pre' post', s = pre' ++ pat ++ post' -> length pre <= length pre'.

Definition occurs (pat s : list ascii) : Prop :=
  exists pre post, s = pre ++ pat ++ post.

(** A [data: ] line whose payload has the key, with fewer than two double
    quotes in what follows its first occurrence. *)
Definition key_without_text (line : list ascii) : Prop :=
  exists pre post,
    line = data_prefix ++ pre ++ response_key ++ post /\
    first_occurrence response_key (pre ++ response_key ++ post) pre /\
    count_occ ascii_dec post DQUOTE < 2.

Definition LF_free (s : list ascii) : Prop := ~ In LF s.

(** The request body as the interface description words it: the escaped
    message stands between two double quotes. *)
Definition documented_body (message : list ascii) (stream : bool) : list ascii :=
  lit "{" ++ quoted "messages" ++ lit ":[{" ++ quoted "role" ++ lit ":"
  ++ quoted "user" ++ lit "," ++ quoted "content" ++ lit ":"
  ++ DQUOTE :: escape message ++ DQUOTE
  :: lit "}]," ++ quoted "stream" ++ lit ":"
  ++ (if stream then lit "true" else lit "false") ++ lit "}".

(** A byte the escaping loop rewrites. *)
Definition escaped_byte (c : ascii) : Prop :=
  c = BACKSLASH \/ c = DQUOTE \/ c = LF.

(** Lines, each followed by its newline, laid end to end. *)
Definition terminated (ls : list (list ascii)) : list ascii :=
  flat_map (fun l => l ++ [LF]) ls.

(** The newline-terminated lines of [s], and what follows the last newline. *)
Fixpoint split_lines (s : list ascii) : list (list ascii) * list ascii :=
  match s with
  | [] => ([], [])
  | c :: s' =>
      let (ls, r) := split_lines s' in
      if Ascii.eqb c LF then ([] :: ls, r)
      else match ls with
           | [] => ([], c :: r)
           | l :: ls' => ((c :: l) :: ls', r)
           end
  end.

Definition complete_lines (s : list ascii) : list (list ascii) := fst (split_lines s).
Definition remainder (s : list ascii) : list ascii := snd (split_lines s).

(** A chunk whose length is a [size_t] value. *)
Definition chunk_fits (chunk : list ascii) : Prop :=
  (N.of_nat (length chunk) < size_t_modulus)%N.

(** The state of the parser after the chunks [chunks], from [ctx]. *)
Definition feed (chunks : list (list ascii)) (ctx : WriteCtx) : WriteCtx :=
  snd (deliver chunks ctx).

(** The test of the escaping loop as a boolean. *)
Definition escaped_byteb (c : ascii) : bool :=
  Ascii.eqb c BACKSLASH || Ascii.eqb c DQUOTE || Ascii.eqb c LF.

(** A reader of escaped text: a backslash announces one escaped byte, [n]
    standing for the newline; every other byte stands for itself. It is not
    part of the client, and serves to show that escaping loses nothing. *)
Fixpoint unescape (s : list ascii) : list ascii :=
  match s with
  | [] => []
  | c :: s' =>
      if Ascii.eqb c BACKSLASH
      then match s' with
           | [] => [c]
           | d :: s'' => (if Ascii.eqb d "n"%char then LF else d) :: unescape s''
           end
      else c :: unescape s'
  end.

(** The two constant parts of the body that [stream_chat] writes around the
    escaped message. *)
Definition body_head : list ascii :=
  lit "{" ++ quoted "messages" ++ lit ":[{" ++ quoted "role" ++ lit ":"
  ++ quoted "user" ++ lit "," ++ quoted "content" ++ lit ":".

Definition body_tail (stream : bool) : list ascii :=
  lit "}]," ++ quoted "stream" ++ lit ":"
  ++ (if stream then lit "true" else lit "false") ++ lit "}".

(** * Properties *)

(** ** Facts about the [std::string] operations *)

Module StdStringFacts.
Import StdString.

Lemma prefixb_app (p r : list ascii) : prefixb p (p ++ r) = true.
Proof.
  induction p as [|a p IH]; simpl; [reflexivity|].
  now rewrite Ascii.eqb_refl, IH.
Qed.

Lemma prefixb_true (p s : list ascii) :
  prefixb p s = true -> exists r, s = p ++ r.
Proof.
  revert s; induction p as [|a p IH]; intros s H.
  - now exists s.
  - destruct s as [|b s]; simpl in H; [discriminate|].
    apply andb_true_iff in H as [Hab Hp].
    apply Ascii.eqb_eq in Hab; subst b.
    destruct (IH _ Hp) as [r ->]. now exists r.
Qed.

Lemma prefixb_spec (p s : list ascii) :
  prefixb p s = true <-> exists r, s = p ++ r.
Proof.
  split; [apply prefixb_true|]. intros [r ->]. apply prefixb_app.
Qed.

Lemma prefixb_length (p s : list ascii) :
  prefixb p s = true -> length p <= length s.
Proof.
  intros H. apply prefixb_true in H as [r ->]. rewrite length_app. lia.
Qed.

(** [index_char] finds the first occurrence. *)
Lemma index_char_Some (c : ascii) (s : list ascii) (k : nat) :
  index_char c s = Some k <->
  exists a b, s = a ++ c :: b /\ length a = k /\ ~ In c a.
Proof.
  revert k; induction s as [|x s IH]; intros k; simpl.
  - split; [discriminate|]. intros (a & b & H & _). now destruct a.
  - destruct (Ascii.eqb x c) eqn:E.
    + apply Ascii.eqb_eq in E; subst x. split.
      * intros [= <-]. exists [], s. simpl. tauto.
      * intros (a & b & H & Hl & Hn). destruct a as [|y a]; simpl in *.
        -- now subst k.
        -- injection H as -> _. exfalso. apply Hn. now left.
    + apply Ascii.eqb_neq in E. split.
      * destruct (index_char c s) as [k'|] eqn:Ei; simpl; [|discriminate].
        intros [= <-]. destruct (proj1 (IH k') eq_refl) as (a & b & -> & Hl & Hn).
        exists (x :: a), b. simpl. repeat split; [now f_equal|].
        intros [->|Hin]; [now apply E | now apply Hn].
      * intros (a & b & H & Hl & Hn). destruct a as [|y a]; simpl in *.
        -- injection H as -> _. now elim E.
        -- injection H as -> H. subst k.
           assert (Hi : index_char c s = Some (length a)).
           { apply IH. exists a, b. repeat split; [assumption|]. intros Hin. apply Hn. now right. }
           now rewrite Hi.
Qed.

Lemma index_char_None (c : ascii) (s : list ascii) :
  index_char c s = None <-> ~ In c s.
Proof.
  induction s as [|x s IH]; simpl.
  - tauto.
  - destruct (Ascii.eqb x c) eqn:E.
    + apply Ascii.eqb_eq in E. split; [discriminate|]. intros H. elim H. now left.
    + apply Ascii.eqb_neq in E.
      destruct (index_char c s) eqn:Ei; simpl.
      * split; [discriminate|]. intros H. exfalso.
        assert (~ In c s) by tauto. now apply IH in H0.
      * split; [|reflexivity]. intros _ [->|Hin]; [now apply E|]. now apply IH.
Qed.

(** [index_str] finds an occurrence, and no occurrence starts before it. *)
Lemma index_str_Some (pat s : list ascii) (k : nat) :
  index_str pat s = Some k <->
  exists a b, s = a ++ pat ++ b /\ length a = k /\
              forall a' b', s = a' ++ pat ++ b' -> k <= length a'.
Proof.
  revert k; induction s as [|x s IH]; intros k.
  - simpl. destruct (prefixb pat []) eqn:E.
    + apply prefixb_true in E as [r E]. split.
      * intros [= <-]. exists [], r. simpl. repeat split; [assumption|]. intros; lia.
      * intros (a & b & H & Hl & _). destruct a; [now subst|discriminate].
    + split; [discriminate|]. intros (a & b & H & Hl & _).
      destruct a; [|discriminate]. simpl in H.
      rewrite H in E. now rewrite prefixb_app in E.
  - cbn [index_str]. destruct (prefixb pat (x :: s)) eqn:E.
    + apply prefixb_true in E as [r E]. split.
      * intros [= <-]. exists [], r. simpl. repeat split; [assumption|]. intros; lia.
      * intros (a & b & H & Hl & Hmin). specialize (Hmin [] r E). simpl in Hmin.
        f_equal. lia.
    + split.
      * destruct (index_str pat s) as [k'|] eqn:Ei; simpl; [|discriminate].
        intros [= <-]. destruct (proj1 (IH k') eq_refl) as (a & b & Hs & Hl & Hmin).
        exists (x :: a), b. simpl. repeat split; [now rewrite Hs | now f_equal |].
        intros a' b' H'. destruct a' as [|y a'].
        -- simpl in H'. rewrite H' in E. now rewrite prefixb_app in E.
        -- simpl in H'. injection H' as _ H'. specialize (Hmin _ _ H'). simpl. lia.
      * intros (a & b & H & Hl & Hmin). destruct a as [|y a].
        -- simpl in H. rewrite H in E. now rewrite prefixb_app in E.
        -- simpl in H. injection H as <- H. simpl in Hl. subst k.
           assert (Hi : index_str pat s = Some (length a)).
           { apply IH. exists a, b. repeat split; [assumption|].
             intros a' b' H'. specialize (Hmin (x :: a') b'). simpl in Hmin.
             rewrite H' in Hmin. specialize (Hmin eq_refl). lia. }
           now rewrite Hi.
Qed.

Lemma index_str_None (pat s : list ascii) :
  index_str pat s = None <-> forall a b, s <> a ++ pat ++ b.
Proof.
  induction s as [|x s IH].
  - simpl. destruct (prefixb pat []) eqn:E.
    + apply prefixb_true in E as [r E]. split; [discriminate|].
      intros H. now elim (H [] r).
    + split; [|reflexivity]. intros _ a b H. destruct a; [|discriminate].
      simpl in H. rewrite H in E. now rewrite prefixb_app in E.
  - cbn [index_str]. destruct (prefixb pat (x :: s)) eqn:E.
    + apply prefixb_true in E as [r E]. split; [discriminate|].
      intros H. now elim (H [] r).
    + destruct (index_str pat s) eqn:Ei; simpl.
      * split; [discriminate|]. intros H. exfalso.
        assert (Hs : forall a b, s <> a ++ pat ++ b).
        { intros a b ->. now apply (H (x :: a) b). }
        apply IH in Hs. discriminate.
      * split; [|reflexivity]. intros _ a b H. destruct a as [|y a].
        -- simpl in H. rewrite H in E. now rewrite prefixb_app in E.
        -- simpl in H. injection H as _ H. revert H. now apply IH.
Qed.

Lemma find_char_Some (s : list ascii) (c : ascii) (pos i : nat) :
  find_char s c pos = Some i <->
  exists a b, skipn pos s = a ++ c :: b /\ i = pos + length a /\ ~ In c a.
Proof.
  unfold find_char. split.
  - destruct (index_char c (skipn pos s)) as [k|] eqn:E; simpl; [|discriminate].
    intros [= <-]. apply index_char_Some in E as (a & b & H & Hl & Hn).
    exists a, b. subst k. tauto.
  - intros (a & b & H & -> & Hn).
    assert (E : index_char c (skipn pos s) = Some (length a)).
    { apply index_char_Some. now exists a, b. }
    now rewrite E.
Qed.

Lemma find_char_None (s : list ascii) (c : ascii) (pos : nat) :
  find_char s c pos = None <-> ~ In c (skipn pos s).
Proof.
  unfold find_char. rewrite <- index_char_None.
  destruct (index_char c (skipn pos s)); simpl; split; congruence.
Qed.

Lemma find_char_lt (s : list ascii) (c : ascii) (pos i : nat) :
  find_char s c pos = Some i -> pos <= i < length s.
Proof.
  intros H. apply find_char_Some in H as (a & b & H & -> & _).
  apply (f_equal (@length ascii)) in H.
  rewrite length_skipn, length_app in H. simpl in H. lia.
Qed.

Lemma find_0 (s pat : list ascii) : find s pat 0 = index_str pat s.
Proof.
  unfold find. simpl. now destruct (index_str pat s).
Qed.

Lemma rfind_down_hit (s pat : list ascii) (pos : nat) :
  prefixb pat (skipn pos s) = true -> rfind_down s pat pos = Some pos.
Proof.
  intros H. destruct pos; cbn [rfind_down]; now rewrite H.
Qed.

Lemma rfind_down_sound (s pat : list ascii) (pos i : nat) :
  rfind_down s pat pos = Some i ->
  i <= pos /\ prefixb pat (skipn i s) = true.
Proof.
  induction pos as [|p IH]; cbn [rfind_down].
  - destruct (prefixb pat (skipn 0 s)) eqn:E; [|discriminate].
    intros [= <-]. now split.
  - destruct (prefixb pat (skipn (S p) s)) eqn:E.
    + intros [= <-]. now split.
    + intros H. apply IH in H. split; [lia | tauto].
Qed.

(** [s.rfind(pat, 0) == 0] tests whether [s] starts with [pat]. *)
Lemma rfind_at_0 (s pat : list ascii) :
  rfind s pat (Some 0) = if prefixb pat s then Some 0 else None.
Proof.
  unfold rfind. destruct (length pat <=? length s) eqn:E.
  - rewrite Nat.min_0_r. reflexivity.
  - apply Nat.leb_gt in E. destruct (prefixb pat s) eqn:P; [|reflexivity].
    apply prefixb_length in P. lia.
Qed.

(** [s.size() >= pat.size() && s.rfind(pat) == s.size() - pat.size()] tests
    whether [s] ends with [pat]. *)
Lemma rfind_suffix (s pat : list ascii) :
  (length pat <= length s /\
   rfind s pat None = Some (length s - length pat)) <->
  exists a, s = a ++ pat.
Proof.
  unfold rfind. split.
  - intros [Hlen H]. apply Nat.leb_le in Hlen as Hb. rewrite Hb in H.
    apply rfind_down_sound in H as [_ H].
    apply prefixb_true in H as [r H].
    assert (Hr : r = []).
    { apply (f_equal (@length ascii)) in H.
      rewrite length_skipn, length_app in H.
      destruct r; [reflexivity | simpl in H; lia]. }
    subst r. rewrite app_nil_r in H.
    exists (firstn (length s - length pat) s).
    rewrite <- (firstn_skipn (length s - length pat) s) at 1.
    now rewrite H.
  - intros [a ->]. rewrite length_app.
    split; [lia|].
    replace (length pat <=? length a + length pat) with true
      by (symmetry; apply Nat.leb_le; lia).
    replace (length a + length pat - length pat) with (length a) by lia.
    apply rfind_down_hit.
    rewrite skipn_app, skipn_all, Nat.sub_diag. simpl.
    rewrite <- (app_nil_r pat) at 2. apply prefixb_app.
Qed.

Lemma back_slash (s : list ascii) (c : ascii) :
  negb (empty s) && Ascii.eqb (back s) c = true <-> exists a, s = a ++ [c].
Proof.
  unfold back. split.
  - intros H. apply andb_true_iff in H as [Hne Hc].
    apply Ascii.eqb_eq in Hc.
    destruct s as [|x s]; [discriminate|].
    exists (removelast (x :: s)). rewrite <- Hc.
    apply app_removelast_last. discriminate.
  - intros [a ->]. rewrite last_last, Ascii.eqb_refl.
    now destruct a.
Qed.

Lemma c_str_no_NUL (s : list ascii) : ~ In NUL s -> c_str s = s.
Proof.
  induction s as [|x s IH]; simpl; [reflexivity|]. intros H.
  destruct (Ascii.eqb x NUL) eqn:E.
  - apply Ascii.eqb_eq in E. elim H. now left.
  - f_equal. apply IH. tauto.
Qed.

Lemma c_str_app (p s : list ascii) :
  ~ In NUL p -> c_str (p ++ s) = p ++ c_str s.
Proof.
  induction p as [|x p IH]; simpl; [reflexivity|]. intros H.
  destruct (Ascii.eqb x NUL) eqn:E.
  - apply Ascii.eqb_eq in E. elim H. now left.
  - f_equal. apply IH. tauto.
Qed.

End StdStringFacts.

(** ** Facts about the line rules of [on_write] *)

Module LineFacts.
Import StdString StdStringFacts.

Ltac run := unfold bind, ret, throw, call_cb, get_buffer, set_buffer; simpl.

Lemma skipn_length_app {A : Type} (a b : list A) : skipn (length a) (a ++ b) = b.
Proof.
  rewrite skipn_app, skipn_all, Nat.sub_diag. reflexivity.
Qed.

Lemma firstn_length_app {A : Type} (a b : list A) : firstn (length a) (a ++ b) = a.
Proof.
  rewrite firstn_app, firstn_all, Nat.sub_diag. simpl. apply app_nil_r.
Qed.

Lemma substr_ok (s : list ascii) (pos : nat) (n : option nat) (ctx : WriteCtx) :
  pos <= length s ->
  substr s pos n ctx =
  (Ok (match n with
       | None => skipn pos s
       | Some k => firstn k (skipn pos s)
       end), ctx).
Proof.
  intros H. unfold substr. apply Nat.leb_le in H. now rewrite H.
Qed.

Lemma str_eqb_eq (a b : list ascii) : str_eqb a b = true <-> a = b.
Proof.
  unfold str_eqb. destruct (list_eq_dec ascii_dec a b); split; congruence.
Qed.

Lemma emit_nil (ctx : WriteCtx) : emit ctx [] = ctx.
Proof.
  destruct ctx. unfold emit. simpl. now rewrite app_nil_r.
Qed.

Lemma emit_emit (ctx : WriteCtx) (us vs : list StreamResponse) :
  emit (emit ctx us) vs = emit ctx (us ++ vs).
Proof.
  unfold emit. simpl. now rewrite app_assoc.
Qed.

(** The payload rules never throw, and what they emit does not depend on
    the state they run in. *)
Lemma on_write_payload_run (payload : list ascii) :
  exists us, forall ctx, on_write_payload payload ctx = (Ok tt, emit ctx us).
Proof.
  unfold on_write_payload.
  destruct (str_eqb payload done_sentinel || empty payload).
  { eexists. intros ctx. run. reflexivity. }
  destruct (find payload response_key 0) as [kpos|].
  2:{ eexists. intros ctx. run. reflexivity. }
  destruct (find_char payload DQUOTE (kpos + length response_key)) as [start|] eqn:Es.
  2:{ exists []. intros ctx. run. now rewrite emit_nil. }
  destruct (find_char payload DQUOTE (start + 1)) as [end_|].
  2:{ exists []. intros ctx. run. now rewrite emit_nil. }
  apply find_char_lt in Es.
  eexists. intros ctx. unfold bind.
  rewrite substr_ok by lia. run. reflexivity.
Qed.

Lemma on_write_payload_units (payload : list ascii) (ctx : WriteCtx) :
  on_write_payload payload ctx = (Ok tt, emit ctx (payload_units payload)).
Proof.
  destruct (on_write_payload_run payload) as [us H].
  unfold payload_units. now rewrite (H ctx_empty), H.
Qed.

Lemma on_write_line_data (payload : list ascii) (ctx : WriteCtx) :
  on_write_line (data_prefix ++ payload) ctx = on_write_payload payload ctx.
Proof.
  unfold on_write_line. rewrite rfind_at_0, prefixb_app. unfold bind.
  rewrite substr_ok by (rewrite length_app; simpl; lia).
  change 6 with (length data_prefix). now rewrite skipn_length_app.
Qed.

Lemma on_write_line_other (line : list ascii) (ctx : WriteCtx) :
  prefixb data_prefix line = false -> on_write_line line ctx = (Ok tt, ctx).
Proof.
  intros H. unfold on_write_line. now rewrite rfind_at_0, H.
Qed.

Lemma on_write_line_units (line : list ascii) (ctx : WriteCtx) :
  on_write_line line ctx = (Ok tt, emit ctx (line_units line)).
Proof.
  unfold line_units. destruct (prefixb data_prefix line) eqn:E.
  - apply prefixb_true in E as [payload ->].
    now rewrite !on_write_line_data, !on_write_payload_units.
  - rewrite !on_write_line_other by assumption. simpl. now rewrite emit_nil.
Qed.

Lemma line_units_data (payload : list ascii) :
  line_units (data_prefix ++ payload) = payload_units payload.
Proof.
  unfold line_units, payload_units. now rewrite on_write_line_data.
Qed.

Lemma line_units_other (line : list ascii) :
  ~ starts_with line data_prefix -> line_units line = [].
Proof.
  intros H. unfold line_units. rewrite on_write_line_other; [reflexivity|].
  destruct (prefixb data_prefix line) eqn:E; [|reflexivity].
  elim H. now apply prefixb_true.
Qed.

(** The payload rules as a function of the payload alone. *)
Lemma payload_units_eq (payload : list ascii) :
  payload_units payload =
  if str_eqb payload done_sentinel || empty payload
  then [{| text := []; done := true |}]
  else match index_str response_key payload with
       | Some kpos =>
           match find_char payload DQUOTE (kpos + length response_key) with
           | Some start =>
               match find_char payload DQUOTE (start + 1) with
               | Some end_ =>
                   [{| text := firstn (end_ - start - 1) (skipn (start + 1) payload);
                       done := false |}]
               | None => []
               end
           | None => []
           end
       | None => [{| text := payload; done := false |}]
       end.
Proof.
  unfold payload_units, on_write_payload. rewrite find_0.
  destruct (str_eqb payload done_sentinel || empty payload); [reflexivity|].
  destruct (index_str response_key payload) as [kpos|]; [|reflexivity].
  destruct (find_char payload DQUOTE (kpos + length response_key)) as [start|] eqn:Es;
    [|reflexivity].
  destruct (find_char payload DQUOTE (start + 1)) as [end_|]; [|reflexivity].
  apply find_char_lt in Es. unfold bind.
  rewrite substr_ok by lia. reflexivity.
Qed.

Lemma first_occurrence_index (pat s pre : list ascii) :
  first_occurrence pat s pre -> index_str pat s = Some (length pre).
Proof.
  intros [[post H] Hmin]. apply index_str_Some. exists pre, post. tauto.
Qed.

Lemma index_first_occurrence (pat s : list ascii) (k : nat) :
  index_str pat s = Some k ->
  exists pre, length pre = k /\ first_occurrence pat s pre.
Proof.
  intros H. apply index_str_Some in H as (a & b & H & Hl & Hmin).
  exists a. split; [assumption|]. split; [now exists b|]. now rewrite Hl.
Qed.

Lemma not_occurs_index (pat s : list ascii) :
  ~ occurs pat s <-> index_str pat s = None.
Proof.
  rewrite index_str_None. unfold occurs. split.
  - intros H a b E. apply H. now exists a, b.
  - intros H (a & b & E). now apply (H a b).
Qed.

Lemma find_char_app (pre post : list ascii) (c : ascii) (n : nat) :
  length pre = n ->
  find_char (pre ++ post) c n = option_map (Nat.add n) (index_char c post).
Proof.
  intros <-. unfold find_char. now rewrite skipn_length_app.
Qed.

Lemma payload_with_key_not_done (pre post : list ascii) :
  str_eqb (pre ++ response_key ++ post) done_sentinel
  || empty (pre ++ response_key ++ post) = false.
Proof.
  apply orb_false_iff. split.
  - destruct (str_eqb _ _) eqn:E; [|reflexivity].
    apply str_eqb_eq in E. apply (f_equal (@length ascii)) in E.
    rewrite !length_app in E. simpl in E. lia.
  - destruct pre; reflexivity.
Qed.

Lemma payload_units_done (payload : list ascii) :
  payload = done_sentinel \/ payload = [] ->
  payload_units payload = [{| text := []; done := true |}].
Proof.
  intros [-> | ->]; reflexivity.
Qed.

Lemma payload_units_fallback (payload : list ascii) :
  payload <> done_sentinel -> payload <> [] ->
  ~ occurs response_key payload ->
  payload_units payload = [{| text := payload; done := false |}].
Proof.
  intros Hd He Hk. rewrite payload_units_eq.
  replace (str_eqb payload done_sentinel || empty payload) with false.
  - apply not_occurs_index in Hk. now rewrite Hk.
  - symmetry. apply orb_false_iff. split.
    + destruct (str_eqb payload done_sentinel) eqn:E; [|reflexivity].
      now apply str_eqb_eq in E.
    + now destruct payload.
Qed.

(** After the first occurrence of the key the two searches for a double
    quote run on what follows the key. *)
Lemma payload_units_key (pre post : list ascii) :
  first_occurrence response_key (pre ++ response_key ++ post) pre ->
  payload_units (pre ++ response_key ++ post) =
  match index_char DQUOTE post with
  | Some i =>
      match index_char DQUOTE (skipn (S i) post) with
      | Some j => [{| text := firstn j (skipn (S i) post); done := false |}]
      | None => []
      end
  | None => []
  end.
Proof.
  intros Hf. rewrite payload_units_eq, payload_with_key_not_done.
  rewrite (first_occurrence_index _ _ _ Hf).
  rewrite app_assoc.
  rewrite find_char_app by now rewrite length_app.
  set (k := length pre + length response_key).
  destruct (index_char DQUOTE post) as [i|]; cbn [option_map]; [|reflexivity].
  assert (Hs : skipn (k + i + 1) ((pre ++ response_key) ++ post) = skipn (S i) post).
  { replace (k + i + 1) with (length (pre ++ response_key) + S i)
      by (rewrite length_app; unfold k; lia).
    rewrite skipn_app, skipn_all2 by lia.
    simpl app. f_equal. lia. }
  unfold find_char. fold k. rewrite Hs.
  destruct (index_char DQUOTE (skipn (S i) post)) as [j|]; cbn [option_map]; [|reflexivity].
  do 3 f_equal. lia.
Qed.

Lemma skipn_S_app_cons {A : Type} (a b : list A) (c : A) :
  skipn (S (length a)) (a ++ c :: b) = b.
Proof.
  replace (a ++ c :: b) with ((a ++ [c]) ++ b) by now rewrite <- app_assoc.
  replace (S (length a)) with (length (a ++ [c]))
    by (rewrite length_app; simpl; lia).
  apply skipn_length_app.
Qed.

Lemma index_char_here (c : ascii) (a b : list ascii) :
  ~ In c a -> index_char c (a ++ c :: b) = Some (length a).
Proof.
  intros H. apply index_char_Some. now exists a, b.
Qed.

Lemma payload_units_extract (pre mid t rest : list ascii) :
  first_occurrence response_key
    (pre ++ response_key ++ mid ++ DQUOTE :: t ++ DQUOTE :: rest) pre ->
  ~ In DQUOTE mid -> ~ In DQUOTE t ->
  payload_units (pre ++ response_key ++ mid ++ DQUOTE :: t ++ DQUOTE :: rest) =
  [{| text := t; done := false |}].
Proof.
  intros Hf Hm Ht. rewrite (payload_units_key _ _ Hf).
  rewrite (index_char_here _ _ _ Hm), skipn_S_app_cons.
  rewrite (index_char_here _ _ _ Ht), firstn_length_app. reflexivity.
Qed.

Lemma count_occ_DQUOTE_0 (s : list ascii) :
  ~ In DQUOTE s -> count_occ ascii_dec s DQUOTE = 0.
Proof.
  apply count_occ_not_In.
Qed.

(** Nothing is emitted for a payload with the key exactly when fewer than
    two double quotes follow the key. *)
Lemma payload_units_key_nil (pre post : list ascii) :
  first_occurrence response_key (pre ++ response_key ++ post) pre ->
  (payload_units (pre ++ response_key ++ post) = [] <->
   count_occ ascii_dec post DQUOTE < 2).
Proof.
  intros Hf. rewrite (payload_units_key _ _ Hf).
  destruct (index_char DQUOTE post) as [i|] eqn:Ei.
  - apply index_char_Some in Ei as (a & b & -> & <- & Ha).
    rewrite skipn_S_app_cons, count_occ_app, (count_occ_DQUOTE_0 _ Ha).
    rewrite count_occ_cons_eq by reflexivity.
    destruct (index_char DQUOTE b) as [j|] eqn:Ej.
    + apply index_char_Some in Ej as (a' & b' & -> & _ & _).
      rewrite count_occ_app, count_occ_cons_eq by reflexivity.
      split; [discriminate | lia].
    + apply index_char_None in Ej.
      rewrite (count_occ_DQUOTE_0 _ Ej). split; [lia | reflexivity].
  - apply index_char_None in Ei.
    rewrite (count_occ_DQUOTE_0 _ Ei). split; [lia | reflexivity].
Qed.

(** Every payload gives no unit, the terminal unit, or one unit whose text
    is a contiguous piece of the payload. *)
Lemma payload_units_shape (payload : list ascii) :
  payload_units payload = [] \/
  payload_units payload = [{| text := []; done := true |}] \/
  exists a t b, payload = a ++ t ++ b /\
                payload_units payload = [{| text := t; done := false |}].
Proof.
  rewrite payload_units_eq.
  destruct (str_eqb payload done_sentinel || empty payload); [tauto|].
  destruct (index_str response_key payload) as [kpos|].
  - destruct (find_char payload DQUOTE (kpos + length response_key)) as [start|];
      [|tauto].
    destruct (find_char payload DQUOTE (start + 1)) as [end_|]; [|tauto].
    right; right.
    exists (firstn (start + 1) payload),
           (firstn (end_ - start - 1) (skipn (start + 1) payload)),
           (skipn (end_ - start - 1) (skipn (start + 1) payload)).
    split; [|reflexivity]. now rewrite !firstn_skipn.
  - right; right. exists [], payload, []. simpl. now rewrite app_nil_r.
Qed.

(** Ways to establish the hypotheses on a given string by evaluation. *)
Lemma first_occurrence_by_index (pat s pre post : list ascii) :
  s = pre ++ pat ++ post -> index_str pat s = Some (length pre) ->
  first_occurrence pat s pre.
Proof.
  intros H Hi. split; [now exists post|].
  apply index_str_Some in Hi as (a & b & _ & _ & Hmin). exact Hmin.
Qed.

Lemma not_occurs_by_index (pat s : list ascii) :
  index_str pat s = None -> ~ occurs pat s.
Proof.
  apply not_occurs_index.
Qed.

Lemma not_starts_with_by_prefixb (s p : list ascii) :
  prefixb p s = false -> ~ starts_with s p.
Proof.
  intros H Hs. apply prefixb_spec in Hs. congruence.
Qed.

End LineFacts.

(** ** Facts about the buffer and the loop of [on_write] *)

Module BufferFacts.
Import StdString StdStringFacts LineFacts.

Lemma split_lines_LF_free (s : list ascii) :
  LF_free s -> split_lines s = ([], s).
Proof.
  unfold LF_free. induction s as [|c s IH]; simpl; [reflexivity|]. intros H.
  rewrite IH by tauto.
  destruct (Ascii.eqb c LF) eqn:E; [|reflexivity].
  apply Ascii.eqb_eq in E. elim H. now left.
Qed.

Lemma split_lines_line (a r : list ascii) :
  LF_free a ->
  split_lines (a ++ LF :: r) = (a :: complete_lines r, remainder r).
Proof.
  unfold LF_free, complete_lines, remainder.
  induction a as [|c a IH]; intros H.
  - simpl. now destruct (split_lines r).
  - simpl. rewrite IH by (simpl in H; tauto).
    destruct (Ascii.eqb c LF) eqn:E; [|reflexivity].
    apply Ascii.eqb_eq in E. elim H. now left.
Qed.

Lemma split_lines_unique (ls : list (list ascii)) (r : list ascii) :
  Forall LF_free ls -> LF_free r ->
  split_lines (terminated ls ++ r) = (ls, r).
Proof.
  intros Hls Hr. induction Hls as [|l ls Hl _ IH]; simpl.
  - now apply split_lines_LF_free.
  - rewrite <- !app_assoc. simpl.
    rewrite split_lines_line by assumption.
    unfold complete_lines, remainder. fold (terminated ls). now rewrite IH.
Qed.

Lemma split_lines_spec (s : list ascii) :
  s = terminated (complete_lines s) ++ remainder s /\
  Forall LF_free (complete_lines s) /\ LF_free (remainder s).
Proof.
  unfold complete_lines, remainder, LF_free.
  induction s as [|c s (IH1 & IH2 & IH3)]; simpl.
  - repeat split; [constructor | tauto].
  - destruct (split_lines s) as [ls r]. simpl in *.
    destruct (Ascii.eqb c LF) eqn:E.
    + apply Ascii.eqb_eq in E; subst c. simpl.
      repeat split; [f_equal; exact IH1 | constructor; [intros [] | exact IH2] | exact IH3].
    + apply Ascii.eqb_neq in E. destruct ls as [|l ls]; simpl in *.
      * repeat split; [f_equal; exact IH1 | constructor |].
        intros [->|H]; [now apply E | now apply IH3].
      * apply Forall_cons_iff in IH2 as [Hl Hls].
        repeat split; [f_equal; exact IH1 | | assumption].
        constructor; [|assumption].
        intros [->|H]; [now apply E | now apply Hl].
Qed.

Lemma terminated_app (ls ls' : list (list ascii)) :
  terminated (ls ++ ls') = terminated ls ++ terminated ls'.
Proof.
  apply flat_map_app.
Qed.

(** Splitting a stream in two pieces: the lines of the whole are the lines
    of the first piece, then the lines of what the first piece left over
    followed by the second piece. *)
Lemma split_lines_app (s c : list ascii) :
  split_lines (s ++ c) =
  (complete_lines s ++ complete_lines (remainder s ++ c),
   remainder (remainder s ++ c)).
Proof.
  destruct (split_lines_spec s) as (Hs & Hls & Hr).
  destruct (split_lines_spec (remainder s ++ c)) as (Hs' & Hls' & Hr').
  remember (complete_lines s) as ls. remember (remainder s) as r.
  remember (complete_lines (r ++ c)) as ls'. remember (remainder (r ++ c)) as r'.
  assert (E : s ++ c = terminated (ls ++ ls') ++ r').
  { rewrite terminated_app, <- app_assoc, <- Hs', app_assoc, <- Hs. reflexivity. }
  rewrite E. apply split_lines_unique; [|assumption].
  apply Forall_app. now split.
Qed.

Lemma skipn_remainder (s : list ascii) :
  skipn (length s - length (remainder s)) s = remainder s.
Proof.
  destruct (split_lines_spec s) as (Hs & _ & _).
  remember (complete_lines s) as ls. remember (remainder s) as r.
  rewrite Hs, length_app.
  replace (_ + _ - _) with (length (terminated ls)) by lia.
  apply skipn_length_app.
Qed.

(** The loop, started at [pos], handles the complete lines of the buffer
    from [pos] on, in order, breaks at the start of what follows the last
    newline, and never runs out of fuel or throws. *)
Lemma on_write_loop_run (fuel pos : nat) (ctx : WriteCtx) :
  pos <= length (buffer ctx) ->
  length (buffer ctx) - pos < fuel ->
  on_write_loop fuel pos ctx =
  (Ok (length (buffer ctx) - length (remainder (skipn pos (buffer ctx)))),
   emit ctx (flat_map line_units (complete_lines (skipn pos (buffer ctx))))).
Proof.
  revert pos ctx. induction fuel as [|fuel IH]; intros pos ctx Hpos Hfuel; [lia|].
  cbn [on_write_loop]. unfold bind at 1. unfold get_buffer.
  assert (Hlen := length_skipn pos (buffer ctx)).
  destruct (find_char (buffer ctx) LF pos) as [nl|] eqn:E.
  - apply find_char_Some in E as (a & r & Hs & -> & Ha).
    rewrite Hs in Hlen. rewrite length_app in Hlen. simpl in Hlen.
    unfold bind. rewrite substr_ok by assumption.
    replace (pos + length a - pos) with (length a) by lia.
    rewrite Hs, firstn_length_app, on_write_line_units.
    rewrite IH; simpl buffer; try lia.
    replace (pos + length a + 1) with (S (length a) + pos) by lia.
    rewrite <- skipn_skipn, Hs, skipn_S_app_cons.
    unfold complete_lines at 2, remainder at 2.
    rewrite split_lines_line by assumption. simpl.
    now rewrite emit_emit.
  - apply find_char_None in E.
    unfold complete_lines, remainder.
    rewrite split_lines_LF_free by assumption. simpl.
    rewrite emit_nil, Hlen. unfold ret. do 2 f_equal. lia.
Qed.

(** One call of [on_write]: it returns [size * nmemb], having handled the
    complete lines of the old buffer followed by the new bytes, and keeps
    what follows the last newline. *)
Lemma on_write_run (ptr : list ascii) (size nmemb : N) (ctx : WriteCtx) :
  let total := size_t_mul size nmemb in
  let b := buffer ctx ++ firstn (N.to_nat total) ptr in
  on_write ptr size nmemb ctx =
  (Ok total,
   {| cb_calls := cb_calls ctx ++ flat_map line_units (complete_lines b);
      buffer := remainder b |}).
Proof.
  intros total b. unfold on_write. fold total.
  unfold bind at 1, get_buffer at 1. unfold bind at 1, set_buffer at 1.
  unfold bind at 1, get_buffer at 1. cbn [buffer cb_calls]. fold b.
  unfold bind at 1.
  rewrite on_write_loop_run by (cbn [buffer]; lia).
  cbn [buffer]. rewrite skipn_O.
  unfold bind at 1, get_buffer at 1. cbn [emit buffer]. fold b.
  unfold bind at 1.
  rewrite substr_ok by lia.
  rewrite skipn_remainder. reflexivity.
Qed.

Lemma size_t_mul_1 (n : nat) :
  (N.of_nat n < size_t_modulus)%N -> size_t_mul 1 (N.of_nat n) = N.of_nat n.
Proof.
  intros H. unfold size_t_mul. rewrite N.mul_1_l. now apply N.mod_small.
Qed.

Lemma write_chunk_run (chunk : list ascii) (ctx : WriteCtx) :
  chunk_fits chunk ->
  write_chunk chunk ctx =
  (Ok (N.of_nat (length chunk)),
   {| cb_calls := cb_calls ctx
                  ++ flat_map line_units (complete_lines (buffer ctx ++ chunk));
      buffer := remainder (buffer ctx ++ chunk) |}).
Proof.
  intros H. unfold write_chunk. rewrite on_write_run.
  rewrite (size_t_mul_1 _ H), Nat2N.id, firstn_all. reflexivity.
Qed.

(** Delivery of a whole response: every chunk is accepted, and the state
    reached is the one a single chunk holding all the bytes would give. *)
Lemma deliver_run (chunks : list (list ascii)) (ctx : WriteCtx) :
  Forall chunk_fits chunks ->
  LF_free (buffer ctx) ->
  deliver chunks ctx =
  (Ok true,
   {| cb_calls := cb_calls ctx
                  ++ flat_map line_units
                       (complete_lines (buffer ctx ++ concat chunks));
      buffer := remainder (buffer ctx ++ concat chunks) |}).
Proof.
  intros H. revert ctx. induction H as [|chunk chunks Hc _ IH]; intros ctx Hb.
  - simpl. rewrite app_nil_r. unfold ret, complete_lines, remainder.
    rewrite split_lines_LF_free by assumption. simpl.
    rewrite app_nil_r. now destruct ctx.
  - cbn [deliver]. unfold bind. rewrite (write_chunk_run _ _ Hc).
    rewrite N.eqb_refl, IH by apply split_lines_spec.
    cbn [cb_calls buffer concat].
    assert (E := split_lines_app (buffer ctx ++ chunk) (concat chunks)).
    rewrite <- app_assoc in E.
    assert (E1 := f_equal fst E). assert (E2 := f_equal snd E).
    cbn [fst snd] in E1, E2. fold (complete_lines (buffer ctx ++ chunk ++ concat chunks)) in E1.
    fold (remainder (buffer ctx ++ chunk ++ concat chunks)) in E2.
    now rewrite E1, E2, flat_map_app, app_assoc.
Qed.

Lemma feed_run (chunks : list (list ascii)) :
  Forall chunk_fits chunks ->
  feed chunks ctx_empty =
  {| cb_calls := flat_map line_units (complete_lines (concat chunks));
     buffer := remainder (concat chunks) |}.
Proof.
  intros H. unfold feed. rewrite deliver_run by (assumption || intros []).
  reflexivity.
Qed.

Lemma remainder_after_last_LF (a b : list ascii) :
  LF_free b -> remainder (a ++ LF :: b) = b.
Proof.
  intros Hb.
  pose proof (f_equal snd (split_lines_app a (LF :: b))) as E.
  cbn [snd] in E. fold (remainder (a ++ LF :: b)) in E. rewrite E.
  unfold remainder at 1.
  rewrite split_lines_line by apply split_lines_spec.
  cbn [snd]. unfold remainder. now rewrite split_lines_LF_free.
Qed.

Lemma line_units_length (l : list ascii) : length (line_units l) <= 1.
Proof.
  destruct (prefixb data_prefix l) eqn:E.
  - apply prefixb_true in E as [payload ->]. rewrite line_units_data.
    destruct (payload_units_shape payload) as [H|[H|(a & t & b & _ & H)]];
      rewrite H; simpl; lia.
  - rewrite line_units_other by now apply not_starts_with_by_prefixb.
    simpl; lia.
Qed.

(** A unit of a line is the terminal unit or carries a contiguous piece of
    the payload of that line. *)
Lemma line_units_text (l : list ascii) (u : StreamResponse) :
  In u (line_units l) ->
  (done u = true /\ text u = []) \/
  (done u = false /\ exists a b, l = data_prefix ++ a ++ text u ++ b).
Proof.
  destruct (prefixb data_prefix l) eqn:E.
  - apply prefixb_true in E as [payload ->]. rewrite line_units_data.
    destruct (payload_units_shape payload) as [H|[H|(a & t & b & Hp & H)]];
      rewrite H; simpl.
    + intros [].
    + intros [<-|[]]. now left.
    + intros [<-|[]]. right. split; [reflexivity|]. exists a, b. simpl.
      now rewrite <- Hp.
  - rewrite line_units_other by now apply not_starts_with_by_prefixb.
    intros [].
Qed.

Lemma line_units_nil_iff (l : list ascii) :
  line_units l = [] <-> ~ starts_with l data_prefix \/ key_without_text l.
Proof.
  split.
  - intros H. destruct (prefixb data_prefix l) eqn:E.
    + right. apply prefixb_true in E as [payload ->].
      rewrite line_units_data in H.
      destruct (index_str response_key payload) as [k|] eqn:Ei.
      * apply index_first_occurrence in Ei as (pre & _ & Hf).
        destruct Hf as [[post ->] Hmin].
        assert (Hf : first_occurrence response_key (pre ++ response_key ++ post) pre)
          by (split; [now exists post | assumption]).
        exists pre, post. repeat split; try assumption; [now exists post|].
        now apply (payload_units_key_nil _ _ Hf).
      * rewrite payload_units_eq, Ei in H.
        destruct (str_eqb payload done_sentinel || empty payload); discriminate.
    + left. now apply not_starts_with_by_prefixb.
  - intros [H | (pre & post & -> & Hf & Hc)].
    + now apply line_units_other.
    + rewrite line_units_data. now apply (payload_units_key_nil _ _ Hf).
Qed.

End BufferFacts.

(** ** Facts about the request builder *)

Module BuilderFacts.
Import StdString StdStringFacts.

Lemma escape_step_app (os : list ascii) (c : ascii) :
  escape_step os c = os ++ escape_step [] c.
Proof.
  unfold escape_step.
  destruct (Ascii.eqb c BACKSLASH); [reflexivity|].
  destruct (Ascii.eqb c DQUOTE); [reflexivity|].
  destruct (Ascii.eqb c LF); reflexivity.
Qed.

(** The loop appends to whatever the stream already holds. *)
Lemma escape_loop (message os : list ascii) :
  fold_left escape_step message os = os ++ escape message.
Proof.
  unfold escape. revert os.
  induction message as [|c m IH]; intros os; simpl.
  - now rewrite app_nil_r.
  - rewrite IH, (IH (escape_step [] c)), escape_step_app.
    now rewrite app_assoc.
Qed.

Lemma escape_cons (c : ascii) (m : list ascii) :
  escape (c :: m) = escape_step [] c ++ escape m.
Proof.
  unfold escape at 1. simpl. apply escape_loop.
Qed.

Lemma escape_app (a b : list ascii) :
  escape (a ++ b) = escape a ++ escape b.
Proof.
  induction a as [|c a IH]; [reflexivity|].
  simpl. now rewrite !escape_cons, IH, app_assoc.
Qed.

Lemma escape_step_plain (c : ascii) :
  ~ escaped_byte c -> escape_step [] c = [c].
Proof.
  unfold escaped_byte, escape_step. intros H.
  destruct (Ascii.eqb c BACKSLASH) eqn:E1; [apply Ascii.eqb_eq in E1; tauto|].
  destruct (Ascii.eqb c DQUOTE) eqn:E2; [apply Ascii.eqb_eq in E2; tauto|].
  destruct (Ascii.eqb c LF) eqn:E3; [apply Ascii.eqb_eq in E3; tauto|].
  reflexivity.
Qed.

Lemma escape_plain (m : list ascii) :
  (forall c, In c m -> ~ escaped_byte c) -> escape m = m.
Proof.
  induction m as [|c m IH]; intros H; [reflexivity|].
  rewrite escape_cons, escape_step_plain by (apply H; now left).
  simpl. f_equal. apply IH. intros c' Hc'. apply H. now right.
Qed.

Lemma request_body_eq (message : list ascii) (stream : bool) :
  request_body message stream =
  lit "{" ++ quoted "messages" ++ lit ":[{" ++ quoted "role" ++ lit ":"
  ++ quoted "user" ++ lit "," ++ quoted "content" ++ lit ":"
  ++ escape message
  ++ lit "}]," ++ quoted "stream" ++ lit ":"
  ++ (if stream then lit "true" else lit "false") ++ lit "}".
Proof.
  unfold request_body. rewrite escape_loop. cbn [app].
  rewrite <- !app_assoc. reflexivity.
Qed.

Lemma ends_with_chat_path (u : list ascii) :
  (8 <=? length u)
  && match rfind u chat_path None with
     | Some i => i =? length u - 8
     | None => false
     end = true <-> ends_with u chat_path.
Proof.
  unfold ends_with. rewrite <- rfind_suffix.
  change (length chat_path) with 8.
  rewrite andb_true_iff, Nat.leb_le.
  destruct (rfind u chat_path None) as [i|].
  - rewrite Nat.eqb_eq. split; intros [H1 H2]; (split; [assumption|]); congruence.
  - split; intros [_ H]; discriminate.
Qed.

Lemma not_ends_with_by_skipn (s p : list ascii) :
  str_eqb (skipn (length s - length p) s) p = false -> ~ ends_with s p.
Proof.
  intros H [a ->]. rewrite length_app in H.
  replace (length a + length p - length p) with (length a) in H by lia.
  rewrite LineFacts.skipn_length_app in H.
  unfold str_eqb in H. destruct (list_eq_dec ascii_dec p p); congruence.
Qed.

End BuilderFacts.

(** * The request builder *)

Import StdString StdStringFacts LineFacts BufferFacts BuilderFacts.

(** C5. The endpoint is derived from the base URL by its suffix alone: a URL
    that ends with [/v1/chat] is used unchanged; otherwise a URL that ends
    with [/] gets [v1/chat] appended; any other URL gets [/v1/chat]
    appended. *)
Theorem endpoint_derivation (self : ApiClient) :
  (ends_with (api_url_ self) chat_path -> endpoint self = api_url_ self) /\
  (~ ends_with (api_url_ self) chat_path ->
   ends_with (api_url_ self) [SLASH] ->
   endpoint self = api_url_ self ++ lit "v1/chat") /\
  (~ ends_with (api_url_ self) chat_path ->
   ~ ends_with (api_url_ self) [SLASH] ->
   endpoint self = api_url_ self ++ lit "/v1/chat").
Proof.
  unfold endpoint.
  pose proof (ends_with_chat_path (api_url_ self)) as Hchat.
  pose proof (back_slash (api_url_ self) SLASH) as Hslash.
  fold (ends_with (api_url_ self) [SLASH]) in Hslash.
  destruct (_ && _) eqn:E1 in |- *.
  - repeat split; intros; try reflexivity; tauto.
  - assert (Hn : ~ ends_with (api_url_ self) chat_path).
    { intros H. apply Hchat in H. congruence. }
    destruct (negb _ && _) eqn:E2.
    + repeat split; intros; tauto.
    + assert (Hs : ~ ends_with (api_url_ self) [SLASH]).
      { intros H. apply Hslash in H. congruence. }
      repeat split; intros; tauto.
Qed.

Lemma endpoint_derivation_witness :
  endpoint (mkApiClient (lit "http://h:3000/v1/chat") [] []) = lit "http://h:3000/v1/chat" /\
  endpoint (mkApiClient (lit "http://h:3000/") [] []) = lit "http://h:3000/v1/chat" /\
  endpoint (mkApiClient (lit "http://h:3000") [] []) = lit "http://h:3000/v1/chat".
Proof.
  split; [|split].
  - apply (proj1 (endpoint_derivation (mkApiClient (lit "http://h:3000/v1/chat") [] []))).
    exists (lit "http://h:3000"). reflexivity.
  - apply (proj1 (proj2 (endpoint_derivation (mkApiClient (lit "http://h:3000/") [] [])))).
    + apply not_ends_with_by_skipn. reflexivity.
    + exists (lit "http://h:3000"). reflexivity.
  - apply (proj2 (proj2 (endpoint_derivation (mkApiClient (lit "http://h:3000") [] [])))).
    + apply not_ends_with_by_skipn. reflexivity.
    + apply not_ends_with_by_skipn. reflexivity.
Defined.

(** C6. The escaping loop leaves a message without backslash, double quote
    and newline as it is, so that escaping it again changes nothing; in any
    message each backslash, double quote and newline is replaced, where it
    stands, by backslash backslash, backslash double-quote and backslash [n],
    and every other byte is copied: the pieces before and after an
    occurrence are escaped on their own and stay before and after it. *)
Theorem escape_three_bytes (message : list ascii) :
  ((forall c, In c message -> ~ escaped_byte c) ->
   escape message = message /\ escape (escape message) = escape message) /\
  (forall a c b, message = a ++ c :: b ->
     (c = BACKSLASH ->
      escape message = escape a ++ [BACKSLASH; BACKSLASH] ++ escape b) /\
     (c = DQUOTE ->
      escape message = escape a ++ [BACKSLASH; DQUOTE] ++ escape b) /\
     (c = LF ->
      escape message = escape a ++ [BACKSLASH; "n"%char] ++ escape b) /\
     (~ escaped_byte c ->
      escape message = escape a ++ [c] ++ escape b)).
Proof.
  split.
  - intros H. rewrite (escape_plain _ H). split; [reflexivity | now apply escape_plain].
  - intros a c b ->. rewrite escape_app, escape_cons.
    repeat split.
    + now intros ->.
    + now intros ->.
    + now intros ->.
    + intros H. now rewrite escape_step_plain.
Qed.

Lemma escape_three_bytes_witness :
  (escape (lit "hello world") = lit "hello world" /\
   escape (escape (lit "hello world")) = escape (lit "hello world")) /\
  escape (lit "a\b") = escape (lit "a") ++ [BACKSLASH; BACKSLASH] ++ escape (lit "b") /\
  escape (lit "say " ++ DQUOTE :: lit "hi") =
    escape (lit "say ") ++ [BACKSLASH; DQUOTE] ++ escape (lit "hi") /\
  escape (lit "one" ++ LF :: lit "two") =
    escape (lit "one") ++ [BACKSLASH; "n"%char] ++ escape (lit "two") /\
  escape (lit "x" ++ CR :: lit "y") = escape (lit "x") ++ [CR] ++ escape (lit "y").
Proof.
  split; [|split; [|split; [|split]]].
  - apply (proj1 (escape_three_bytes (lit "hello world"))).
    intros c Hc [E|[E|E]]; subst c; simpl in Hc;
      repeat (destruct Hc as [Hc|Hc]; [discriminate Hc|]); exact Hc.
  - apply (proj2 (escape_three_bytes (lit "a\b")) (lit "a") BACKSLASH (lit "b") eq_refl).
    reflexivity.
  - apply (proj2 (escape_three_bytes (lit "say " ++ DQUOTE :: lit "hi"))
             (lit "say ") DQUOTE (lit "hi") eq_refl).
    reflexivity.
  - apply (proj2 (escape_three_bytes (lit "one" ++ LF :: lit "two"))
             (lit "one") LF (lit "two") eq_refl).
    reflexivity.
  - apply (proj2 (escape_three_bytes (lit "x" ++ CR :: lit "y"))
             (lit "x") CR (lit "y") eq_refl).
    intros [E|[E|E]]; discriminate E.
Defined.

Lemma request_body_length (message : list ascii) (stream : bool) :
  length (documented_body message stream) = 2 + length (request_body message stream).
Proof.
  rewrite request_body_eq. unfold documented_body.
  repeat (rewrite ?length_app; cbn [length]). lia.
Qed.

(** C1. The body for the message [hi] with streaming on: the escaped message
    follows the colon of [content] directly and is followed directly by the
    closing brace, with no double quote on either side, so the body is not
    the documented JSON text; and for no message and flag is it. *)
Theorem request_body_content_unquoted :
  request_body (lit "hi") true =
    lit "{" ++ quoted "messages" ++ lit ":[{" ++ quoted "role" ++ lit ":"
    ++ quoted "user" ++ lit "," ++ quoted "content" ++ lit ":hi}],"
    ++ quoted "stream" ++ lit ":true}" /\
  documented_body (lit "hi") true =
    lit "{" ++ quoted "messages" ++ lit ":[{" ++ quoted "role" ++ lit ":"
    ++ quoted "user" ++ lit "," ++ quoted "content" ++ lit ":" ++ quoted "hi"
    ++ lit "}]," ++ quoted "stream" ++ lit ":true}" /\
  forall message stream,
    request_body message stream <> documented_body message stream.
Proof.
  split; [reflexivity | split; [reflexivity|]].
  intros message stream H.
  pose proof (request_body_length message stream) as L.
  rewrite H in L. lia.
Qed.

Ltac not_prefixed H := apply prefixb_spec in H; simpl in H; discriminate H.

(** C8. The header list holds [Content-Type: application/json]; the [Accept]
    header of the mode and not the other one; a header that starts with
    [X-API-Key: ] exactly when the API key is not empty, and that header is
    [X-API-Key: ] followed by the key read as a C string, which is the key
    itself when the key holds no NUL byte; and the same for [X-Session-ID: ]
    and the session id. *)
Theorem request_headers_spec (self : ApiClient) (stream : bool) :
  let hs := request_headers self stream in
  In (lit "Content-Type: application/json") hs /\
  (stream = true ->
   In (lit "Accept: text/event-stream") hs /\ ~ In (lit "Accept: application/json") hs) /\
  (stream = false ->
   In (lit "Accept: application/json") hs /\ ~ In (lit "Accept: text/event-stream") hs) /\
  ((exists h, In h hs /\ starts_with h (lit "X-API-Key: ")) <-> api_key_ self <> []) /\
  (forall h, In h hs -> starts_with h (lit "X-API-Key: ") ->
             h = lit "X-API-Key: " ++ c_str (api_key_ self)) /\
  (api_key_ self <> [] -> ~ In NUL (api_key_ self) ->
   In (lit "X-API-Key: " ++ api_key_ self) hs) /\
  ((exists h, In h hs /\ starts_with h (lit "X-Session-ID: ")) <-> session_id_ self <> []) /\
  (forall h, In h hs -> starts_with h (lit "X-Session-ID: ") ->
             h = lit "X-Session-ID: " ++ c_str (session_id_ self)) /\
  (session_id_ self <> [] -> ~ In NUL (session_id_ self) ->
   In (lit "X-Session-ID: " ++ session_id_ self) hs).
Proof.
  assert (Hhs : request_headers self stream =
    [lit "Content-Type: application/json";
     if stream then lit "Accept: text/event-stream" else lit "Accept: application/json"]
    ++ (if empty (api_key_ self) then []
        else [lit "X-API-Key: " ++ c_str (api_key_ self)])
    ++ (if empty (session_id_ self) then []
        else [lit "X-Session-ID: " ++ c_str (session_id_ self)])).
  { unfold request_headers, curl_slist_append.
    rewrite !c_str_app by (simpl; intuition discriminate).
    destruct (empty (api_key_ self)), (empty (session_id_ self)); reflexivity. }
  intros hs. subst hs. rewrite Hhs. clear Hhs.
  destruct self as [url key sid]. cbn [api_key_ session_id_].
  assert (Hkey : forall k : list ascii, (if empty k then true else false) = true <-> k = []).
  { intros [|? ?]; simpl; split; congruence. }
  refine (conj _ (conj _ (conj _ (conj _ (conj _ (conj _ (conj _ (conj _ _)))))))).
  - now left.
  - intros ->. split; [right; now left|].
    destruct (empty key), (empty sid); simpl; intuition discriminate.
  - intros ->. split; [right; now left|].
    destruct (empty key), (empty sid); simpl; intuition discriminate.
  - split.
    + intros (h & Hin & Hp) ->. simpl in Hin.
      destruct Hin as [<-|[<-|Hin]]; [not_prefixed Hp | destruct stream; not_prefixed Hp |].
      destruct (empty sid); simpl in Hin; [tauto|].
      destruct Hin as [<-|[]]. not_prefixed Hp.
    + intros Hne. exists (lit "X-API-Key: " ++ c_str key). split.
      * destruct key; [congruence|]. simpl. tauto.
      * now exists (c_str key).
  - intros h Hin Hp. simpl in Hin.
    destruct Hin as [<-|[<-|Hin]]; [not_prefixed Hp | destruct stream; not_prefixed Hp |].
    destruct (empty key); simpl in Hin.
    + destruct (empty sid); simpl in Hin; [tauto|].
      destruct Hin as [<-|[]]. not_prefixed Hp.
    + destruct Hin as [<-|Hin]; [reflexivity|].
      destruct (empty sid); simpl in Hin; [tauto|].
      destruct Hin as [<-|[]]. not_prefixed Hp.
  - intros Hne Hnul. rewrite (c_str_no_NUL _ Hnul).
    destruct key; [congruence|]. simpl. tauto.
  - split.
    + intros (h & Hin & Hp) ->. simpl in Hin.
      destruct Hin as [<-|[<-|Hin]]; [not_prefixed Hp | destruct stream; not_prefixed Hp |].
      rewrite app_nil_r in Hin.
      destruct (empty key); simpl in Hin; [tauto|].
      destruct Hin as [<-|[]]. not_prefixed Hp.
    + intros Hne. exists (lit "X-Session-ID: " ++ c_str sid). split.
      * destruct sid; [congruence|]. destruct (empty key); simpl; tauto.
      * now exists (c_str sid).
  - intros h Hin Hp. simpl in Hin.
    destruct Hin as [<-|[<-|Hin]]; [not_prefixed Hp | destruct stream; not_prefixed Hp |].
    destruct (empty key); simpl in Hin.
    + destruct (empty sid); simpl in Hin; [tauto|].
      destruct Hin as [<-|[]]. reflexivity.
    + destruct Hin as [<-|Hin]; [not_prefixed Hp|].
      destruct (empty sid); simpl in Hin; [tauto|].
      destruct Hin as [<-|[]]. reflexivity.
  - intros Hne Hnul. rewrite (c_str_no_NUL _ Hnul).
    destruct sid; [congruence|]. destruct (empty key); simpl; tauto.
Qed.

Lemma request_headers_spec_witness :
  In (lit "X-API-Key: k3y")
     (request_headers (mkApiClient (lit "http://h") (lit "k3y") (lit "s1")) true) /\
  In (lit "X-Session-ID: s1")
     (request_headers (mkApiClient (lit "http://h") (lit "k3y") (lit "s1")) true).
Proof.
  pose proof (request_headers_spec (mkApiClient (lit "http://h") (lit "k3y") (lit "s1")) true)
    as (_ & _ & _ & _ & _ & Hkey & _ & _ & Hsid).
  split.
  - apply Hkey; [discriminate|]. simpl. intuition discriminate.
  - apply Hsid; [discriminate|]. simpl. intuition discriminate.
Defined.

(** An API key with a NUL byte in it is not empty, yet the header list does
    not hold [X-API-Key: ] followed by that key: the header stops where the
    C string stops. *)
Lemma request_headers_key_with_NUL :
  let self := mkApiClient (lit "http://h") ("a"%char :: NUL :: lit "b") [] in
  api_key_ self <> [] /\
  ~ In (lit "X-API-Key: " ++ api_key_ self) (request_headers self true) /\
  request_headers self true =
    [lit "Content-Type: application/json"; lit "Accept: text/event-stream";
     lit "X-API-Key: a"].
Proof.
  cbv zeta. split; [discriminate|]. split; [|reflexivity].
  simpl. intuition discriminate.
Qed.

(** * The response parser *)

(** C2. The rules for one complete line, run in any state: a line that does
    not start with the six bytes [data: ] makes no callback; for a line
    [data: ] followed by [payload], a payload equal to [[DONE]] or empty
    makes exactly one callback, with the empty text and [done] set; a payload
    in which the key occurs, followed (after bytes that are not double
    quotes) by a double quote, a text without double quote and another double
    quote, makes exactly one callback with that text and [done] clear; a
    payload in which the key does not occur makes exactly one callback with
    the payload itself and [done] clear. No rule throws. *)
Theorem on_write_line_rules (line : list ascii) (ctx : WriteCtx) :
  (~ starts_with line data_prefix -> on_write_line line ctx = (Ok tt, ctx)) /\
  (forall payload, line = data_prefix ++ payload ->
     (payload = done_sentinel \/ payload = [] ->
      on_write_line line ctx =
      (Ok tt, emit ctx [{| text := []; done := true |}])) /\
     (forall pre mid t rest,
        payload = pre ++ response_key ++ mid ++ DQUOTE :: t ++ DQUOTE :: rest ->
        first_occurrence response_key payload pre ->
        ~ In DQUOTE mid -> ~ In DQUOTE t ->
        on_write_line line ctx =
        (Ok tt, emit ctx [{| text := t; done := false |}])) /\
     (payload <> done_sentinel -> payload <> [] ->
      ~ occurs response_key payload ->
      on_write_line line ctx =
      (Ok tt, emit ctx [{| text := payload; done := false |}]))).
Proof.
  split.
  - intros H. rewrite on_write_line_units, line_units_other by assumption.
    now rewrite emit_nil.
  - intros payload ->.
    rewrite on_write_line_units, line_units_data.
    refine (conj _ (conj _ _)).
    + intros H. now rewrite payload_units_done.
    + intros pre mid t rest -> Hf Hm Ht. now rewrite payload_units_extract.
    + intros Hd He Hk. now rewrite payload_units_fallback.
Qed.

Lemma on_write_line_rules_witness :
  on_write_line (lit ": keep-alive") ctx_empty = (Ok tt, ctx_empty) /\
  on_write_line (lit "data: [DONE]") ctx_empty =
    (Ok tt, emit ctx_empty [{| text := []; done := true |}]) /\
  on_write_line (lit "data: {" ++ response_key ++ lit " " ++ DQUOTE :: lit "hello"
                 ++ DQUOTE :: lit "}") ctx_empty =
    (Ok tt, emit ctx_empty [{| text := lit "hello"; done := false |}]) /\
  on_write_line (lit "data: plainstring") ctx_empty =
    (Ok tt, emit ctx_empty [{| text := lit "plainstring"; done := false |}]).
Proof.
  refine (conj _ (conj _ (conj _ _))).
  - apply (proj1 (on_write_line_rules (lit ": keep-alive") ctx_empty)).
    apply not_starts_with_by_prefixb. reflexivity.
  - apply (proj1 (proj2 (on_write_line_rules (lit "data: [DONE]") ctx_empty)
                    (lit "[DONE]") eq_refl)).
    left. reflexivity.
  - apply (proj1 (proj2 (proj2 (on_write_line_rules _ ctx_empty)
                    (lit "{" ++ response_key ++ lit " " ++ DQUOTE :: lit "hello"
                     ++ DQUOTE :: lit "}") eq_refl))
             (lit "{") (lit " ") (lit "hello") (lit "}") eq_refl).
    + apply (first_occurrence_by_index _ _ _
               (lit " " ++ DQUOTE :: lit "hello" ++ DQUOTE :: lit "}"));
        reflexivity.
    + simpl. intuition discriminate.
    + simpl. intuition discriminate.
  - apply (proj2 (proj2 (proj2 (on_write_line_rules (lit "data: plainstring") ctx_empty)
                    (lit "plainstring") eq_refl))).
    + discriminate.
    + discriminate.
    + apply not_occurs_by_index. reflexivity.
Defined.

(** C4. From the empty state, the chunk that holds the start of a line up to
    the middle of the response text makes no callback and is kept whole; the
    chunk that completes the line then makes the one callback of the two
    chunks together, with the text [hello] and [done] clear, and leaves the
    buffer empty. Both chunks are accepted. *)
Theorem split_token_chunks :
  let chunk1 := lit "data: {" ++ quoted "response" ++ lit ":" ++ DQUOTE :: lit "hel" in
  let chunk2 := lit "lo" ++ DQUOTE :: lit "}" ++ [LF] in
  write_chunk chunk1 ctx_empty =
    (Ok 22%N, {| cb_calls := []; buffer := chunk1 |}) /\
  write_chunk chunk2 {| cb_calls := []; buffer := chunk1 |} =
    (Ok 5%N, {| cb_calls := [{| text := lit "hello"; done := false |}];
                buffer := [] |}) /\
  deliver [chunk1; chunk2] ctx_empty =
    (Ok true, {| cb_calls := [{| text := lit "hello"; done := false |}];
                 buffer := [] |}).
Proof.
  cbv zeta. repeat split; vm_compute; reflexivity.
Qed.

(** C3. After any sequence of chunks, from the empty state: the buffer is
    what follows the last newline received (everything received, when no
    newline was); the bytes received are, in order, the lines handled so far,
    each with its newline, followed by the buffer, so that every complete line
    was handled exactly once and in arrival order; the callbacks made are those
    of these lines, at most one per line, the terminal unit or a contiguous
    piece of the payload of the line. What a line gives: nothing, exactly when
    it does not start with [data: ] or has the key with fewer than two double
    quotes after it; its whole payload, every byte once and in order, when
    the payload has no key and is neither empty nor the sentinel; the
    terminal unit when the payload is empty or the sentinel; and the text
    between the first two double quotes after the key otherwise. *)
Theorem buffer_invariant (chunks : list (list ascii)) :
  Forall chunk_fits chunks ->
  let ctx := feed chunks ctx_empty in
  let received := concat chunks in
  (LF_free received -> buffer ctx = received) /\
  (forall a b, received = a ++ LF :: b -> LF_free b -> buffer ctx = b) /\
  exists lines,
    received = terminated lines ++ buffer ctx /\
    Forall LF_free lines /\ LF_free (buffer ctx) /\
    cb_calls ctx = flat_map line_units lines /\
    forall l,
      length (line_units l) <= 1 /\
      (forall u, In u (line_units l) ->
         (done u = true /\ text u = []) \/
         (done u = false /\ exists a b, l = data_prefix ++ a ++ text u ++ b)) /\
      (line_units l = [] <-> ~ starts_with l data_prefix \/ key_without_text l) /\
      (forall payload, l = data_prefix ++ payload ->
         payload <> done_sentinel -> payload <> [] ->
         ~ occurs response_key payload ->
         line_units l = [{| text := payload; done := false |}]) /\
      (forall payload, l = data_prefix ++ payload ->
         payload = done_sentinel \/ payload = [] ->
         line_units l = [{| text := []; done := true |}]) /\
      (forall pre mid t rest,
         l = data_prefix ++ pre ++ response_key ++ mid
             ++ DQUOTE :: t ++ DQUOTE :: rest ->
         first_occurrence response_key
           (pre ++ response_key ++ mid ++ DQUOTE :: t ++ DQUOTE :: rest) pre ->
         ~ In DQUOTE mid -> ~ In DQUOTE t ->
         line_units l = [{| text := t; done := false |}]).
Proof.
  intros Hfit ctx received. subst ctx. rewrite (feed_run _ Hfit).
  fold received. cbn [buffer cb_calls].
  refine (conj _ (conj _ _)).
  - intros H. unfold remainder. now rewrite split_lines_LF_free.
  - intros a b -> Hb. now apply remainder_after_last_LF.
  - exists (complete_lines received).
    destruct (split_lines_spec received) as (Hs & Hl & Hr).
    refine (conj Hs (conj Hl (conj Hr (conj eq_refl _)))).
    intros l.
    refine (conj (line_units_length l)
             (conj (line_units_text l)
                (conj (line_units_nil_iff l) (conj _ (conj _ _))))).
    + intros payload -> Hd He Hk. rewrite line_units_data.
      now apply payload_units_fallback.
    + intros payload -> H. rewrite line_units_data.
      now apply payload_units_done.
    + intros pre mid t rest -> Hf Hm Ht. rewrite line_units_data.
      now apply payload_units_extract.
Qed.

Lemma buffer_invariant_witness :
  let chunks := [lit "data: a" ++ LF :: lit ": ping" ++ LF :: lit "da";
                 lit "ta: b" ++ LF :: lit "data: c"] in
  buffer (feed chunks ctx_empty) = lit "data: c" /\
  cb_calls (feed chunks ctx_empty) =
    [{| text := lit "a"; done := false |}; {| text := lit "b"; done := false |}] /\
  line_units (lit "data: plainstring") =
    [{| text := lit "plainstring"; done := false |}].
Proof.
  cbv zeta.
  assert (Hfit : Forall chunk_fits
            [lit "data: a" ++ LF :: lit ": ping" ++ LF :: lit "da";
             lit "ta: b" ++ LF :: lit "data: c"]).
  { repeat constructor. }
  pose proof (buffer_invariant _ Hfit) as (_ & Hbuf & lines & _ & _ & _ & _ & Hline).
  refine (conj _ (conj eq_refl _)).
  - apply (Hbuf (lit "data: a" ++ LF :: lit ": ping" ++ LF :: lit "data: b")
                (lit "data: c")); [reflexivity|].
    unfold LF_free. simpl. intuition discriminate.
  - destruct (Hline (lit "data: plainstring")) as (_ & _ & _ & Hwhole & _).
    apply (Hwhole (lit "plainstring")).
    + reflexivity.
    + discriminate.
    + discriminate.
    + apply not_occurs_by_index. reflexivity.
Defined.

(** A line that starts with [data: ] and holds the key with no double quote
    after it is consumed from the buffer and makes no callback. *)
Lemma data_line_without_callback :
  starts_with (lit "data: {" ++ response_key ++ lit "42}") data_prefix /\
  feed [lit "data: {" ++ response_key ++ lit "42}" ++ [LF]] ctx_empty =
    {| cb_calls := []; buffer := [] |}.
Proof.
  split; [|reflexivity].
  exists (lit "{" ++ response_key ++ lit "42}"). reflexivity.
Qed.

(** C9. Lines end at the newline byte only. The single chunk [data: [DONE]]
    followed by carriage return and newline makes exactly one callback, with
    the text [[DONE]] followed by the carriage return and [done] clear: the
    carriage return stays at the end of the candidate line, so the payload is
    not the sentinel. In general bytes without a newline are kept whole and
    make no callback, carriage returns or not, and a line sent with carriage
    return and newline is handled with its carriage return. *)
Theorem carriage_return_kept :
  deliver [lit "data: [DONE]" ++ [CR; LF]] ctx_empty =
    (Ok true, {| cb_calls := [{| text := lit "[DONE]" ++ [CR]; done := false |}];
                 buffer := [] |}) /\
  (forall s, chunk_fits s -> LF_free s ->
     feed [s] ctx_empty = {| cb_calls := []; buffer := s |}) /\
  (forall line, chunk_fits (line ++ [CR; LF]) -> LF_free line ->
     feed [line ++ [CR; LF]] ctx_empty =
     {| cb_calls := line_units (line ++ [CR]); buffer := [] |}).
Proof.
  refine (conj _ (conj _ _)).
  - vm_compute. reflexivity.
  - intros s Hfit Hs. rewrite feed_run by (constructor; [assumption | constructor]).
    cbn [concat]. rewrite app_nil_r. unfold complete_lines, remainder.
    now rewrite split_lines_LF_free.
  - intros line Hfit Hl.
    rewrite feed_run by (constructor; [assumption | constructor]).
    cbn [concat]. rewrite app_nil_r.
    replace (line ++ [CR; LF]) with ((line ++ [CR]) ++ LF :: [])
      by now rewrite <- app_assoc.
    unfold complete_lines, remainder. rewrite split_lines_line.
    + simpl. now rewrite app_nil_r.
    + unfold LF_free in *. rewrite in_app_iff. simpl. intuition discriminate.
Qed.

Lemma carriage_return_kept_witness :
  feed [lit "event: x" ++ [CR]] ctx_empty =
    {| cb_calls := []; buffer := lit "event: x" ++ [CR] |} /\
  feed [lit "data: hi" ++ [CR; LF]] ctx_empty =
    {| cb_calls := line_units (lit "data: hi" ++ [CR]); buffer := [] |}.
Proof.
  split.
  - apply (proj1 (proj2 carriage_return_kept)); [reflexivity|].
    unfold LF_free. simpl. intuition discriminate.
  - apply (proj2 (proj2 carriage_return_kept) (lit "data: hi")); [reflexivity|].
    unfold LF_free. simpl. intuition discriminate.
Defined.

(** C10. [on_write] returns [size * nmemb] whatever it is given, so the
    transport never stops the transfer on its account; and the terminal unit
    changes nothing for what follows: in a response whose complete lines are
    [before], then [data: [DONE]], then [after], cut into chunks in any way,
    every chunk is accepted and the callbacks are those of [before], the
    terminal unit, then those of [after], each line of [after] handled by the
    same rules as any line; two sentinel lines make two terminal units. *)
Theorem done_is_not_terminal :
  (forall ptr size nmemb ctx,
     fst (on_write ptr size nmemb ctx) = Ok (size_t_mul size nmemb)) /\
  (forall size nmemb, (size * nmemb < size_t_modulus)%N ->
     size_t_mul size nmemb = (size * nmemb)%N) /\
  (forall chunks before after rest,
     Forall chunk_fits chunks ->
     Forall LF_free before -> Forall LF_free after -> LF_free rest ->
     concat chunks =
       terminated (before ++ [data_prefix ++ done_sentinel] ++ after) ++ rest ->
     deliver chunks ctx_empty =
     (Ok true,
      {| cb_calls := flat_map line_units before
                     ++ [{| text := []; done := true |}]
                     ++ flat_map line_units after;
         buffer := rest |})) /\
  deliver [lit "data: [DONE]" ++ LF :: lit "data: [DONE]" ++ [LF];
           lit "data: more" ++ [LF]] ctx_empty =
    (Ok true,
     {| cb_calls := [{| text := []; done := true |};
                     {| text := []; done := true |};
                     {| text := lit "more"; done := false |}];
        buffer := [] |}).
Proof.
  refine (conj _ (conj _ (conj _ _))).
  - intros ptr size nmemb ctx. now rewrite on_write_run.
  - intros size nmemb H. unfold size_t_mul. now apply N.mod_small.
  - intros chunks before after rest Hfit Hb Ha Hr Hc.
    rewrite deliver_run by (assumption || intros []).
    unfold ctx_empty. cbn [buffer cb_calls app]. rewrite Hc.
    unfold complete_lines, remainder. rewrite split_lines_unique.
    + cbn [fst snd]. now rewrite !flat_map_app.
    + apply Forall_app. split; [assumption|].
      apply Forall_app. split; [|assumption].
      constructor; [|constructor].
      unfold LF_free. simpl. intuition discriminate.
    + assumption.
  - vm_compute. reflexivity.
Qed.

Lemma done_is_not_terminal_witness :
  deliver [lit "data: a" ++ LF :: lit "data: [DO";
           lit "NE]" ++ LF :: lit "data: b" ++ LF :: lit "data: [DONE]" ++ LF :: lit "tail"]
          ctx_empty =
  (Ok true,
   {| cb_calls := flat_map line_units [lit "data: a"]
                  ++ [{| text := []; done := true |}]
                  ++ flat_map line_units [lit "data: b"; lit "data: [DONE]"];
      buffer := lit "tail" |}).
Proof.
  apply (proj1 (proj2 (proj2 done_is_not_terminal))).
  - repeat constructor.
  - repeat constructor; unfold LF_free; simpl; intuition discriminate.
  - repeat constructor; unfold LF_free; simpl; intuition discriminate.
  - unfold LF_free; simpl; intuition discriminate.
  - reflexivity.
Defined.

(** * [stream_chat] *)

Lemma curl_easy_perform_run (curl : Transport) :
  Forall chunk_fits (response curl) ->
  curl_easy_perform curl ctx_empty =
  (Ok (completion curl),
   {| cb_calls := flat_map line_units (complete_lines (concat (response curl)));
      buffer := remainder (concat (response curl)) |}).
Proof.
  intros H. unfold curl_easy_perform, bind.
  rewrite deliver_run by (assumption || intros []). reflexivity.
Qed.

(** ** Facts about the code run with any callback *)

Module CallbackFacts.









Lemma after_invocations_not_out_of_fuel (cb : Callback) (us : list StreamResponse)
    (ctx : WriteCtx) :
  fst (after_invocations cb us ctx) <> OutOfFuel.
Proof.
  unfold after_invocations.
  destruct (invocations cb (cb_calls ctx) us) as [[e|] calls']; discriminate.
Qed.





Lemma call_cb_with_returning (cb : Callback) (r : StreamResponse) (ctx : WriteCtx) :
  returns_always cb -> call_cb_with cb r ctx = call_cb r ctx.
Proof.
  intros (target & -> & Hret). unfold call_cb_with, call_cb. now rewrite Hret.
Qed.







End CallbackFacts.

Import CallbackFacts.




(** * Worked examples *)

(** Two chunks, one line each: the units come out in arrival order. *)
Example two_lines_in_order :
  deliver [lit "data: {" ++ response_key ++ quoted "A" ++ lit "}" ++ [LF];
           lit "data: {" ++ response_key ++ quoted "B" ++ lit "}" ++ [LF]] ctx_empty =
  (Ok true, {| cb_calls := [{| text := lit "A"; done := false |};
                            {| text := lit "B"; done := false |}];
               buffer := [] |}).
Proof. vm_compute. reflexivity. Qed.

(** A comment line makes no callback; a plain payload is passed as it is. *)
Example keep_alive_then_plain :
  deliver [lit ": keep-alive" ++ LF :: lit "data: plainstring" ++ [LF]] ctx_empty =
  (Ok true, {| cb_calls := [{| text := lit "plainstring"; done := false |}];
               buffer := [] |}).
Proof. vm_compute. reflexivity. Qed.

(** A whole exchange: the request that is configured and the units that are
    delivered when the transfer succeeds. *)
Example exchange_ok :
  stream_chat (mkApiClient (lit "http://h:3000/") (lit "k") [])
              (mkTransport true [lit "data: hi" ++ LF :: lit "data: [DONE]" ++ [LF]] CURLE_OK)
              (lit "a" ++ [LF]) false =
  {| outcome := Ok tt;
     request := Some {| opt_url := lit "http://h:3000/v1/chat";
                        opt_post := 1%N;
                        opt_postfields :=
                          lit "{" ++ quoted "messages" ++ lit ":[{" ++ quoted "role"
                          ++ lit ":" ++ quoted "user" ++ lit "," ++ quoted "content"
                          ++ lit ":a\n}]," ++ quoted "stream" ++ lit ":false}";
                        opt_httpheader := [lit "Content-Type: application/json";
                                           lit "Accept: application/json";
                                           lit "X-API-Key: k"] |};
     on_chunk_calls := [{| text := lit "hi"; done := false |};
                        {| text := []; done := true |}] |}.
Proof. vm_compute. reflexivity. Qed.

(** * Further properties of the request builder *)

Module BuilderMore.

Lemma escape_step_cases (c : ascii) :
  (c = BACKSLASH /\ escape_step [] c = [BACKSLASH; BACKSLASH]) \/
  (c = DQUOTE /\ escape_step [] c = [BACKSLASH; DQUOTE]) \/
  (c = LF /\ escape_step [] c = [BACKSLASH; "n"%char]) \/
  (~ escaped_byte c /\ escape_step [] c = [c]).
Proof.
  unfold escape_step, escaped_byte.
  destruct (Ascii.eqb c BACKSLASH) eqn:E1; [apply Ascii.eqb_eq in E1; now left|].
  destruct (Ascii.eqb c DQUOTE) eqn:E2; [apply Ascii.eqb_eq in E2; right; now left|].
  destruct (Ascii.eqb c LF) eqn:E3; [apply Ascii.eqb_eq in E3; right; right; now left|].
  apply Ascii.eqb_neq in E1, E2, E3. right; right; right. split; [tauto | reflexivity].
Qed.

Lemma endpoint_of_suffixed (u k s : list ascii) :
  ends_with u chat_path -> endpoint (mkApiClient u k s) = u.
Proof.
  intros H. unfold endpoint. cbn [api_url_].
  apply ends_with_chat_path in H. now rewrite H.
Qed.

Lemma endpoint_suffixed (self : ApiClient) : ends_with (endpoint self) chat_path.
Proof.
  unfold endpoint.
  destruct (_ && _) eqn:E1.
  - now apply ends_with_chat_path.
  - destruct (negb _ && _) eqn:E2.
    + apply back_slash in E2 as [a ->]. exists a.
      now rewrite <- app_assoc.
    + now exists (api_url_ self).
Qed.

Lemma unescape_escape (m : list ascii) : unescape (escape m) = m.
Proof.
  induction m as [|c m IH]; [reflexivity|].
  rewrite escape_cons.
  destruct (escape_step_cases c) as [[-> ->]|[[-> ->]|[[-> ->]|[Hc ->]]]].
  - simpl. now rewrite IH.
  - simpl. now rewrite IH.
  - simpl. now rewrite IH.
  - cbn [app unescape].
    destruct (Ascii.eqb c BACKSLASH) eqn:E.
    + apply Ascii.eqb_eq in E. elim Hc. now left.
    + now rewrite IH.
Qed.

Lemma escape_no_LF (m : list ascii) : ~ In LF (escape m).
Proof.
  induction m as [|c m IH]; [intros []|].
  rewrite escape_cons, in_app_iff. intros [H|H]; [|now apply IH].
  destruct (escape_step_cases c) as [[_ E]|[[_ E]|[[_ E]|[Hc E]]]];
    rewrite E in H; simpl in H.
  - intuition discriminate.
  - intuition discriminate.
  - intuition discriminate.
  - destruct H as [->|[]]. apply Hc. right; now right.
Qed.

Lemma escape_step_DQUOTE (c : ascii) (a l : list ascii) :
  escape_step [] c = a ++ DQUOTE :: l -> a = [BACKSLASH].
Proof.
  intros H.
  destruct (escape_step_cases c) as [[_ E]|[[_ E]|[[_ E]|[Hc E]]]];
    rewrite E in H.
  - destruct a as [|x [|y [|z a]]]; discriminate H.
  - destruct a as [|x [|y [|z a]]]; try discriminate H.
    now injection H as <-.
  - destruct a as [|x [|y [|z a]]]; discriminate H.
  - destruct a as [|x [|y a]]; try discriminate H.
    injection H as -> _. elim Hc. right; now left.
Qed.

Lemma escape_DQUOTE_escaped (m a b : list ascii) :
  escape m = a ++ DQUOTE :: b -> exists a', a = a' ++ [BACKSLASH].
Proof.
  revert a. induction m as [|c m IH]; intros a H.
  - destruct a; discriminate H.
  - rewrite escape_cons in H. apply app_eq_app in H as [l [[H1 H2]|[H1 H2]]].
    + destruct l as [|x l].
      * simpl in H2. symmetry in H2. apply (IH []) in H2 as [a' Ha'].
        destruct a'; discriminate Ha'.
      * simpl in H2. injection H2 as <- _.
        apply escape_step_DQUOTE in H1. subst a. now exists [].
    + apply IH in H2 as [a' ->]. exists (escape_step [] c ++ a').
      now rewrite H1, app_assoc.
Qed.

Lemma escape_length (m : list ascii) :
  length (escape m) = length m + length (filter escaped_byteb m).
Proof.
  induction m as [|c m IH]; [reflexivity|].
  rewrite escape_cons, length_app, IH. cbn [filter length].
  unfold escape_step, escaped_byteb.
  destruct (Ascii.eqb c BACKSLASH); [simpl; lia|].
  destruct (Ascii.eqb c DQUOTE); [simpl; lia|].
  destruct (Ascii.eqb c LF); simpl; lia.
Qed.

Lemma escape_no_NUL (m : list ascii) : ~ In NUL m -> ~ In NUL (escape m).
Proof.
  induction m as [|c m IH]; [intros _ []|].
  intros Hm. rewrite escape_cons, in_app_iff. intros [H|H].
  - destruct (escape_step_cases c) as [[_ E]|[[_ E]|[[_ E]|[_ E]]]];
      rewrite E in H; simpl in H; try (intuition discriminate).
    destruct H as [->|[]]. apply Hm. now left.
  - apply IH; [|assumption]. intros Hin. apply Hm. now right.
Qed.

Lemma request_body_parts (message : list ascii) (stream : bool) :
  request_body message stream = body_head ++ escape message ++ body_tail stream.
Proof.
  rewrite request_body_eq. unfold body_head, body_tail.
  now rewrite <- !app_assoc.
Qed.

Lemma request_headers_eq (self : ApiClient) (stream : bool) :
  request_headers self stream =
  [lit "Content-Type: application/json";
   if stream then lit "Accept: text/event-stream" else lit "Accept: application/json"]
  ++ (if empty (api_key_ self) then []
      else [lit "X-API-Key: " ++ c_str (api_key_ self)])
  ++ (if empty (session_id_ self) then []
      else [lit "X-Session-ID: " ++ c_str (session_id_ self)]).
Proof.
  unfold request_headers, curl_slist_append.
  rewrite !c_str_app by (simpl; intuition discriminate).
  destruct (empty (api_key_ self)), (empty (session_id_ self)); reflexivity.
Qed.

Lemma stream_chat_request (self : ApiClient) (curl : Transport)
    (message : list ascii) (stream : bool) :
  easy_init_ok curl = true ->
  request (stream_chat self curl message stream) =
  Some {| opt_url := c_str (endpoint self);
          opt_post := 1%N;
          opt_postfields := c_str (request_body message stream);
          opt_httpheader := request_headers self stream |}.
Proof.
  intros H. unfold stream_chat. rewrite H. cbn [negb].
  destruct (curl_easy_perform curl _) as [[res|e|] ctx']; reflexivity.
Qed.

Lemma c_str_cut (x y : list ascii) :
  ~ In NUL x -> c_str (x ++ NUL :: y) = x.
Proof.
  intros H. rewrite c_str_app by assumption. simpl. apply app_nil_r.
Qed.

Lemma endpoint_no_NUL (self : ApiClient) :
  ~ In NUL (api_url_ self) -> ~ In NUL (endpoint self).
Proof.
  intros H. unfold endpoint.
  destruct (_ && _); [assumption|].
  destruct (negb _ && _); rewrite in_app_iff; simpl; intuition discriminate.
Qed.

Lemma body_head_no_NUL : ~ In NUL body_head.
Proof.
  simpl. intuition discriminate.
Qed.

Lemma body_tail_no_NUL (stream : bool) : ~ In NUL (body_tail stream).
Proof.
  destruct stream; simpl; intuition discriminate.
Qed.

End BuilderMore.

Import BuilderMore.

(** X1. Whatever the base URL, the endpoint ends with [/v1/chat]; hence a
    client configured with the endpoint of another one as its base URL has
    the same endpoint: deriving twice adds nothing. *)
Theorem endpoint_idempotent (self : ApiClient) (k s : list ascii) :
  ends_with (endpoint self) chat_path /\
  endpoint (mkApiClient (endpoint self) k s) = endpoint self.
Proof.
  split; [apply endpoint_suffixed|].
  apply endpoint_of_suffixed, endpoint_suffixed.
Qed.

(** X2. The test of the suffix is exact: a base URL that already names the
    chat path but ends with one more slash gets the path once more. *)
Theorem endpoint_path_then_slash (u k s : list ascii) :
  endpoint (mkApiClient (u ++ lit "/v1/chat/") k s) = u ++ lit "/v1/chat/v1/chat".
Proof.
  unfold endpoint. cbn [api_url_].
  destruct (_ && _) eqn:E1.
  - apply ends_with_chat_path in E1 as [a E].
    apply (f_equal (@rev ascii)) in E. rewrite !rev_app_distr in E.
    simpl in E. discriminate E.
  - replace (negb _ && _) with true.
    + rewrite <- app_assoc. reflexivity.
    + symmetry. apply back_slash. exists (u ++ lit "/v1/chat").
      now rewrite <- app_assoc.
Qed.

(** X3. Escaping loses nothing: two messages with the same escaped form are
    the same message. *)
Theorem escape_injective (m1 m2 : list ascii) :
  escape m1 = escape m2 <-> m1 = m2.
Proof.
  split; [|now intros ->].
  intros H. rewrite <- (unescape_escape m1), <- (unescape_escape m2).
  now rewrite H.
Qed.

(** X4. The escaped form of a message holds no newline byte, and each double
    quote in it stands right after a backslash. *)
Theorem escape_output_guarded (m : list ascii) :
  ~ In LF (escape m) /\
  forall a b, escape m = a ++ DQUOTE :: b -> exists a', a = a' ++ [BACKSLASH].
Proof.
  split; [apply escape_no_LF|]. intros a b. apply escape_DQUOTE_escaped.
Qed.

(** X5. The escaped form is longer than the message by one byte for each
    backslash, double quote and newline of the message. *)
Theorem escape_length_exact (m : list ascii) :
  length (escape m) = length m + length (filter escaped_byteb m).
Proof.
  apply escape_length.
Qed.

(** X6. The request body is a single line: no newline byte occurs in it,
    whatever the message holds. *)
Theorem request_body_one_line (message : list ascii) (stream : bool) :
  ~ In LF (request_body message stream).
Proof.
  rewrite request_body_parts, !in_app_iff. intros [H|[H|H]].
  - simpl in H. intuition discriminate.
  - now apply escape_no_LF in H.
  - destruct stream; simpl in H; intuition discriminate.
Qed.

(** X7. The request body determines the message and the flag it was built
    from: two bodies are equal only for the same message and the same flag. *)
Theorem request_body_injective (m1 m2 : list ascii) (s1 s2 : bool) :
  request_body m1 s1 = request_body m2 s2 <-> m1 = m2 /\ s1 = s2.
Proof.
  split; [|now intros [-> ->]].
  rewrite !request_body_parts. intros H. apply app_inv_head in H.
  assert (Hs : s1 = s2).
  { apply (f_equal (@rev ascii)) in H. rewrite !rev_app_distr in H.
    destruct s1, s2; try reflexivity; simpl in H; discriminate H. }
  subst s2. split; [|reflexivity].
  apply app_inv_tail in H.
  rewrite <- (unescape_escape m1), <- (unescape_escape m2). now rewrite H.
Qed.

(** X8. Once a handle is obtained, whatever the transfer does afterwards, the
    request is a POST with the header list of the client. Its URL and its
    body are the endpoint and the body read as C strings: the whole endpoint
    when the base URL holds no NUL byte and the whole body when the message
    holds none, but for a message with a NUL byte the body stops before that
    byte, in the middle of the content and without the closing part. *)
Theorem stream_chat_request_configured (self : ApiClient) (curl : Transport)
    (message : list ascii) (stream : bool) :
  easy_init_ok curl = true ->
  exists req,
    request (stream_chat self curl message stream) = Some req /\
    opt_post req = 1%N /\
    opt_httpheader req = request_headers self stream /\
    (~ In NUL (api_url_ self) -> opt_url req = endpoint self) /\
    (~ In NUL message -> opt_postfields req = request_body message stream) /\
    (forall a b, message = a ++ NUL :: b -> ~ In NUL a ->
       opt_postfields req = body_head ++ escape a).
Proof.
  intros Hinit. eexists. split; [now apply stream_chat_request|].
  cbn [opt_post opt_httpheader opt_url opt_postfields].
  refine (conj eq_refl (conj eq_refl (conj _ (conj _ _)))).
  - intros H. apply c_str_no_NUL. now apply endpoint_no_NUL.
  - intros H. apply c_str_no_NUL. rewrite request_body_parts, !in_app_iff.
    intros [Hin|[Hin|Hin]].
    + now apply body_head_no_NUL.
    + now apply (escape_no_NUL message).
    + now apply (body_tail_no_NUL stream).
  - intros a b -> Ha. rewrite request_body_parts, escape_app, escape_cons.
    change (escape_step [] NUL) with [NUL].
    rewrite <- !app_assoc, (app_assoc body_head). cbn [app].
    apply c_str_cut. rewrite in_app_iff. intros [Hin|Hin].
    + now apply body_head_no_NUL.
    + now apply (escape_no_NUL a).
Qed.

Lemma stream_chat_request_configured_witness :
  exists req,
    request (stream_chat (mkApiClient (lit "http://h") [] [])
               (mkTransport true [] 7%N) ("a"%char :: NUL :: lit "b") true) = Some req /\
    opt_postfields req = body_head ++ lit "a".
Proof.
  destruct (stream_chat_request_configured (mkApiClient (lit "http://h") [] [])
              (mkTransport true [] 7%N) ("a"%char :: NUL :: lit "b") true eq_refl)
    as (req & Hreq & _ & _ & _ & _ & Hcut).
  exists req. split; [exact Hreq|].
  apply (Hcut (lit "a") (lit "b")); [reflexivity|].
  simpl. intuition discriminate.
Defined.

(** X9. The header list never holds the same header twice, and it has two
    entries, one more when the API key is not empty and one more when the
    session id is not empty. *)
Theorem request_headers_distinct (self : ApiClient) (stream : bool) :
  NoDup (request_headers self stream) /\
  length (request_headers self stream) =
  2 + (if empty (api_key_ self) then 0 else 1)
    + (if empty (session_id_ self) then 0 else 1).
Proof.
  rewrite request_headers_eq.
  destruct (empty (api_key_ self)), (empty (session_id_ self)), stream;
    (split; [|reflexivity]);
    repeat (constructor; [simpl; intuition discriminate|]); constructor.
Qed.

(** * Further properties of the response parser *)

Module ParserMore.

Lemma count_LF_terminated (ls : list (list ascii)) (r : list ascii) :
  Forall LF_free ls -> LF_free r ->
  count_occ ascii_dec (terminated ls ++ r) LF = length ls.
Proof.
  intros Hls Hr. induction Hls as [|l ls Hl _ IH]; simpl.
  - now apply count_occ_not_In.
  - rewrite <- !app_assoc, count_occ_app. simpl app.
    rewrite count_occ_cons_eq by reflexivity.
    fold (terminated ls). rewrite IH.
    rewrite (proj1 (count_occ_not_In ascii_dec l LF) Hl). reflexivity.
Qed.

(** As many complete lines as newline bytes. *)
Lemma count_LF_lines (s : list ascii) :
  count_occ ascii_dec s LF = length (complete_lines s).
Proof.
  destruct (split_lines_spec s) as (Hs & Hls & Hr).
  remember (complete_lines s) as ls. remember (remainder s) as r.
  rewrite Hs. now apply count_LF_terminated.
Qed.

Lemma flat_map_line_units_length (ls : list (list ascii)) :
  length (flat_map line_units ls) <= length ls.
Proof.
  induction ls as [|l ls IH]; simpl; [lia|].
  rewrite length_app. pose proof (line_units_length l). lia.
Qed.

Lemma complete_lines_tail (s t : list ascii) :
  LF_free t -> complete_lines (s ++ t) = complete_lines s.
Proof.
  intros Ht. unfold complete_lines at 1. rewrite split_lines_app. cbn [fst].
  unfold complete_lines at 2. rewrite split_lines_LF_free.
  - apply app_nil_r.
  - unfold LF_free in *. rewrite in_app_iff. intros [H|H]; [|tauto].
    now apply (proj2 (proj2 (split_lines_spec s))).
Qed.

End ParserMore.

Import ParserMore.

(** X10. From any state and with any arguments, a call of [on_write] leaves
    a buffer without newline that is the end of the old buffer followed by
    the bytes taken from [ptr], and keeps the callbacks made before, in
    order, ahead of those it makes. *)
Theorem on_write_keeps_invariant (ptr : list ascii) (size nmemb : N)
    (ctx : WriteCtx) :
  let ctx' := snd (on_write ptr size nmemb ctx) in
  LF_free (buffer ctx') /\
  (exists consumed,
     buffer ctx ++ firstn (N.to_nat (size_t_mul size nmemb)) ptr =
     consumed ++ buffer ctx') /\
  (exists us, cb_calls ctx' = cb_calls ctx ++ us).
Proof.
  cbv zeta. rewrite on_write_run. cbn [snd buffer cb_calls].
  set (b := buffer ctx ++ firstn (N.to_nat (size_t_mul size nmemb)) ptr).
  destruct (split_lines_spec b) as (Hs & _ & Hr).
  refine (conj Hr (conj _ _)).
  - now exists (terminated (complete_lines b)).
  - now eexists.
Qed.

(** X11. Only the bytes count, not how the transport cuts them: two
    sequences of chunks with the same concatenation are both accepted whole
    and leave the same callbacks and the same buffer. *)
Theorem chunking_is_irrelevant (chunks1 chunks2 : list (list ascii)) :
  Forall chunk_fits chunks1 -> Forall chunk_fits chunks2 ->
  concat chunks1 = concat chunks2 ->
  deliver chunks1 ctx_empty = deliver chunks2 ctx_empty /\
  fst (deliver chunks1 ctx_empty) = Ok true.
Proof.
  intros H1 H2 E.
  rewrite !deliver_run by (assumption || intros []).
  now rewrite E.
Qed.

Lemma chunking_is_irrelevant_witness :
  deliver [lit "data: a" ++ [LF] ++ lit "data"; lit ": b" ++ [LF]] ctx_empty =
  deliver [lit "da"; lit "ta: a"; [LF]; lit "data: b" ++ [LF]] ctx_empty /\
  fst (deliver [lit "data: a" ++ [LF] ++ lit "data"; lit ": b" ++ [LF]] ctx_empty)
  = Ok true.
Proof.
  apply chunking_is_irrelevant.
  - repeat constructor.
  - repeat constructor.
  - reflexivity.
Defined.

(** X12. The callback is never invoked more often than newline bytes were
    received. *)
Theorem callbacks_at_most_newlines (chunks : list (list ascii)) :
  Forall chunk_fits chunks ->
  length (cb_calls (feed chunks ctx_empty))
  <= count_occ ascii_dec (concat chunks) LF.
Proof.
  intros H. rewrite (feed_run _ H). cbn [cb_calls].
  rewrite count_LF_lines. apply flat_map_line_units_length.
Qed.

Lemma callbacks_at_most_newlines_witness :
  length (cb_calls (feed [lit "data: a" ++ [LF] ++ lit ": x" ++ [LF] ++ lit "data: b"]
                     ctx_empty))
  <= count_occ ascii_dec
       (concat [lit "data: a" ++ [LF] ++ lit ": x" ++ [LF] ++ lit "data: b"]) LF.
Proof.
  apply callbacks_at_most_newlines. repeat constructor.
Defined.

(** X13. A call that is given nothing, because [size * nmemb] is zero as a
    [size_t], returns zero and changes nothing, when the buffer holds no
    newline, as it does after each call. *)
Theorem on_write_nothing (ptr : list ascii) (size nmemb : N) (ctx : WriteCtx) :
  size_t_mul size nmemb = 0%N ->
  LF_free (buffer ctx) ->
  on_write ptr size nmemb ctx = (Ok 0%N, ctx).
Proof.
  intros H0 Hb. rewrite on_write_run, H0. cbn [N.to_nat firstn].
  rewrite app_nil_r. unfold complete_lines, remainder.
  rewrite split_lines_LF_free by assumption. cbn [fst snd flat_map].
  rewrite app_nil_r. now destruct ctx.
Qed.

Lemma on_write_nothing_witness :
  on_write (lit "ignored") 0 5 {| cb_calls := []; buffer := lit "data: par" |} =
  (Ok 0%N, {| cb_calls := []; buffer := lit "data: par" |}).
Proof.
  apply on_write_nothing; [reflexivity|].
  unfold LF_free. simpl. intuition discriminate.
Defined.

(** * Further properties of [stream_chat] and of the line rules *)

Module ExchangeMore.

Lemma stream_chat_run (self : ApiClient) (curl : Transport)
    (message : list ascii) (stream : bool) :
  Forall chunk_fits (response curl) ->
  easy_init_ok curl = true ->
  stream_chat self curl message stream =
  {| outcome := if (completion curl =? CURLE_OK)%N then Ok tt
                else Throw (runtime_error "Request failed");
     request := Some {| opt_url := c_str (endpoint self);
                        opt_post := 1%N;
                        opt_postfields := c_str (request_body message stream);
                        opt_httpheader := request_headers self stream |};
     on_chunk_calls :=
       flat_map line_units (complete_lines (concat (response curl))) |}.
Proof.
  intros Hfit Hinit. unfold stream_chat. rewrite Hinit. cbn [negb].
  fold ctx_empty. now rewrite (curl_easy_perform_run _ Hfit).
Qed.

Lemma escape_no_DQUOTE (m : list ascii) :
  ~ In DQUOTE m -> ~ In DQUOTE (escape m).
Proof.
  induction m as [|c m IH]; [intros _ []|].
  intros Hm. rewrite escape_cons, in_app_iff. intros [H|H].
  - destruct (escape_step_cases c) as [[_ E]|[[Hc _]|[[_ E]|[_ E]]]].
    + rewrite E in H. simpl in H. intuition discriminate.
    + apply Hm. now left.
    + rewrite E in H. simpl in H. intuition discriminate.
    + rewrite E in H. destruct H as [->|[]]. apply Hm. now left.
  - apply IH; [|assumption]. intros Hin. apply Hm. now right.
Qed.

Lemma key_after_brace (post : list ascii) :
  first_occurrence response_key (lit "{" ++ response_key ++ post) (lit "{").
Proof.
  split; [now exists post|].
  intros pre' post' E. destruct pre'; [discriminate E | simpl; lia].
Qed.

End ExchangeMore.

Import ExchangeMore.

(** X14. What is received after the last newline never reaches [on_chunk]:
    when the transfer ends, the callbacks are those of the lines before it,
    and a body with no newline at all makes none. *)
Theorem unterminated_tail_is_lost (self : ApiClient) (curl : Transport)
    (message : list ascii) (stream : bool) (body tail : list ascii) :
  Forall chunk_fits (response curl) ->
  easy_init_ok curl = true ->
  concat (response curl) = body ++ tail ->
  LF_free tail ->
  on_chunk_calls (stream_chat self curl message stream) =
    flat_map line_units (complete_lines body) /\
  (body = [] -> on_chunk_calls (stream_chat self curl message stream) = []).
Proof.
  intros Hfit Hinit E Ht.
  rewrite (stream_chat_run _ _ _ _ Hfit Hinit). cbn [on_chunk_calls].
  rewrite E, complete_lines_tail by assumption.
  split; [reflexivity | now intros ->].
Qed.

Lemma unterminated_tail_is_lost_witness :
  on_chunk_calls
    (stream_chat (mkApiClient (lit "http://h") [] [])
       (mkTransport true [lit "data: a" ++ [LF] ++ lit "data: la"; lit "st"] CURLE_OK)
       (lit "hi") true) =
  flat_map line_units (complete_lines (lit "data: a" ++ [LF])).
Proof.
  apply (unterminated_tail_is_lost _ _ _ _ (lit "data: a" ++ [LF]) (lit "data: last")).
  - repeat constructor.
  - reflexivity.
  - reflexivity.
  - unfold LF_free. simpl. intuition discriminate.
Defined.

(** X15. The two failures carry their own messages. Without a handle the
    exception says [Failed to init curl], no request is configured and
    [on_chunk] is not invoked, whatever the transport would have delivered;
    with a handle and a completion code other than success the exception says
    [Request failed], the same for every such code. *)
Theorem stream_chat_failures (self : ApiClient) (curl : Transport)
    (message : list ascii) (stream : bool) :
  (easy_init_ok curl = false ->
   stream_chat self curl message stream =
   {| outcome := Throw (runtime_error "Failed to init curl");
      request := None;
      on_chunk_calls := [] |}) /\
  (Forall chunk_fits (response curl) ->
   easy_init_ok curl = true -> completion curl <> CURLE_OK ->
   outcome (stream_chat self curl message stream) =
   Throw (runtime_error "Request failed")).
Proof.
  split.
  - intros H. unfold stream_chat. now rewrite H.
  - intros Hfit Hinit Hc. rewrite (stream_chat_run _ _ _ _ Hfit Hinit).
    cbn [outcome]. apply N.eqb_neq in Hc. now rewrite Hc.
Qed.

Lemma stream_chat_failures_witness :
  stream_chat (mkApiClient (lit "http://h") [] [])
    (mkTransport false [lit "data: a" ++ [LF]] CURLE_OK) (lit "hi") true =
  {| outcome := Throw (runtime_error "Failed to init curl");
     request := None;
     on_chunk_calls := [] |} /\
  outcome (stream_chat (mkApiClient (lit "http://h") [] [])
             (mkTransport true [lit "data: a" ++ [LF]] 28%N) (lit "hi") true) =
  Throw (runtime_error "Request failed").
Proof.
  split.
  - apply (proj1 (stream_chat_failures _ _ _ _)). reflexivity.
  - apply (proj2 (stream_chat_failures _ _ _ _)).
    + repeat constructor.
    + reflexivity.
    + discriminate.
Defined.

(** X16. The text of a unit is taken as it stands between the two quotes:
    nothing is unescaped. For a response text written the way the client
    escapes its own messages, a message without double quote comes back in
    its escaped form, and a message with a double quote comes back as the
    escaped form of what precedes that quote followed by a backslash. *)
Theorem response_text_stays_escaped (ctx : WriteCtx) :
  (forall m, ~ In DQUOTE m ->
     on_write_line (data_prefix ++ lit "{" ++ response_key
                    ++ DQUOTE :: escape m ++ DQUOTE :: lit "}") ctx =
     (Ok tt, emit ctx [{| text := escape m; done := false |}])) /\
  (forall a b, ~ In DQUOTE a ->
     on_write_line (data_prefix ++ lit "{" ++ response_key
                    ++ DQUOTE :: escape (a ++ DQUOTE :: b) ++ DQUOTE :: lit "}") ctx =
     (Ok tt, emit ctx [{| text := escape a ++ [BACKSLASH]; done := false |}])).
Proof.
  split.
  - intros m Hm. rewrite on_write_line_units, line_units_data.
    pose proof (payload_units_extract (lit "{") [] (escape m) (lit "}")
                  (key_after_brace _) (fun H => H) (escape_no_DQUOTE _ Hm)) as E.
    cbn [app] in E. now rewrite E.
  - intros a b Ha. rewrite on_write_line_units, line_units_data.
    assert (Ht : ~ In DQUOTE (escape a ++ [BACKSLASH])).
    { rewrite in_app_iff. intros [H|H].
      - now apply (escape_no_DQUOTE a).
      - simpl in H. intuition discriminate. }
    pose proof (payload_units_extract (lit "{") [] (escape a ++ [BACKSLASH])
                  (escape b ++ DQUOTE :: lit "}")
                  (key_after_brace _) (fun H => H) Ht) as E.
    cbn [app] in E.
    rewrite escape_app, escape_cons.
    change (escape_step [] DQUOTE) with [BACKSLASH; DQUOTE].
    replace ((escape a ++ [BACKSLASH; DQUOTE] ++ escape b) ++ DQUOTE :: lit "}")
      with ((escape a ++ [BACKSLASH]) ++ DQUOTE :: escape b ++ DQUOTE :: lit "}")
      by (rewrite <- !app_assoc; reflexivity).
    now rewrite E.
Qed.

Lemma response_text_stays_escaped_witness :
  on_write_line (data_prefix ++ lit "{" ++ response_key
                 ++ DQUOTE :: escape (lit "a\b") ++ DQUOTE :: lit "}") ctx_empty =
  (Ok tt, emit ctx_empty [{| text := lit "a\\b"; done := false |}]) /\
  on_write_line (data_prefix ++ lit "{" ++ response_key
                 ++ DQUOTE :: escape (lit "say " ++ DQUOTE :: lit "hi") ++ DQUOTE :: lit "}")
                ctx_empty =
  (Ok tt, emit ctx_empty [{| text := lit "say \"; done := false |}]).
Proof.
  split.
  - apply (proj1 (response_text_stays_escaped ctx_empty) (lit "a\b")).
    simpl. intuition discriminate.
  - apply (proj2 (response_text_stays_escaped ctx_empty) (lit "say ") (lit "hi")).
    simpl. intuition discriminate.
Defined.

(** X17. A line makes the terminal unit exactly when it is [data: [DONE]]
    or [data: ] with nothing after it; any other line, such as the sentinel
    followed by a space or written without the space after the colon, makes
    no unit with [done] set. *)
Theorem terminal_unit_iff (line : list ascii) :
  (exists u, In u (line_units line) /\ done u = true) <->
  (line = data_prefix ++ done_sentinel \/ line = data_prefix).
Proof.
  split.
  - intros (u & Hin & Hd).
    destruct (prefixb data_prefix line) eqn:E.
    + apply prefixb_true in E as [payload ->].
      rewrite line_units_data, payload_units_eq in Hin.
      destruct (str_eqb payload done_sentinel || empty payload) eqn:T.
      * apply orb_true_iff in T as [T|T].
        -- apply str_eqb_eq in T. left. now rewrite T.
        -- destruct payload; [|discriminate T]. right. now rewrite app_nil_r.
      * exfalso.
        destruct (index_str response_key payload) as [kpos|].
        -- destruct (find_char payload DQUOTE (kpos + length response_key))
             as [start|]; [|destruct Hin].
           destruct (find_char payload DQUOTE (start + 1)) as [end_|];
             [|destruct Hin].
           destruct Hin as [<-|[]]. discriminate Hd.
        -- destruct Hin as [<-|[]]. discriminate Hd.
    + rewrite line_units_other in Hin by now apply not_starts_with_by_prefixb.
      destruct Hin.
  - intros [-> | ->]; exists {| text := []; done := true |};
      (split; [now left | reflexivity]).
Qed.

(** X18. A response none of whose complete lines starts with [data: ], for
    instance a JSON document sent as it is, makes no callback at all, and
    the call still ends normally when the transfer succeeds. *)
Theorem response_without_data_lines (self : ApiClient) (curl : Transport)
    (message : list ascii) (stream : bool)
    (lines : list (list ascii)) (rest : list ascii) :
  Forall chunk_fits (response curl) ->
  easy_init_ok curl = true ->
  concat (response curl) = terminated lines ++ rest ->
  Forall LF_free lines -> LF_free rest ->
  Forall (fun l => ~ starts_with l data_prefix) lines ->
  on_chunk_calls (stream_chat self curl message stream) = [] /\
  (completion curl = CURLE_OK ->
   outcome (stream_chat self curl message stream) = Ok tt).
Proof.
  intros Hfit Hinit E Hl Hr Hd.
  rewrite (stream_chat_run _ _ _ _ Hfit Hinit). cbn [on_chunk_calls outcome].
  split.
  - rewrite E. unfold complete_lines. rewrite split_lines_unique by assumption.
    cbn [fst]. clear E Hl.
    induction Hd as [|l ls Hd _ IH]; [reflexivity|].
    cbn [flat_map]. now rewrite (line_units_other _ Hd), IH.
  - now intros ->.
Qed.

Lemma response_without_data_lines_witness :
  let curl := mkTransport true
                [lit "{" ++ [LF] ++ lit " " ++ response_key ++ quoted "hi"
                 ++ [LF] ++ lit "}"] CURLE_OK in
  on_chunk_calls
    (stream_chat (mkApiClient (lit "http://h") [] []) curl (lit "hi") false) = [] /\
  outcome
    (stream_chat (mkApiClient (lit "http://h") [] []) curl (lit "hi") false) = Ok tt.
Proof.
  cbv zeta.
  assert (H := response_without_data_lines
           (mkApiClient (lit "http://h") [] [])
           (mkTransport true
              [lit "{" ++ [LF] ++ lit " " ++ response_key ++ quoted "hi"
               ++ [LF] ++ lit "}"] CURLE_OK)
           (lit "hi") false
           [lit "{"; lit " " ++ response_key ++ quoted "hi"] (lit "}")).
  destruct H as [Hcalls Hout].
  - repeat constructor.
  - reflexivity.
  - reflexivity.
  - repeat constructor; unfold LF_free; simpl; intuition discriminate.
  - unfold LF_free; simpl; intuition discriminate.
  - repeat constructor; apply not_starts_with_by_prefixb; reflexivity.
  - split; [exact Hcalls | apply Hout; reflexivity].
Defined.

(** X19. No text handed to the callback holds a newline byte: each text is
    empty or a piece of one line of the response. *)
Theorem callback_text_one_line (chunks : list (list ascii)) (u : StreamResponse) :
  Forall chunk_fits chunks ->
  In u (cb_calls (feed chunks ctx_empty)) ->
  ~ In LF (text u).
Proof.
  intros Hfit Hin. rewrite (feed_run _ Hfit) in Hin. cbn [cb_calls] in Hin.
  apply in_flat_map in Hin as (l & Hl & Hu).
  destruct (split_lines_spec (concat chunks)) as (_ & Hls & _).
  rewrite Forall_forall in Hls. specialize (Hls l Hl).
  destruct (line_units_text l u Hu) as [[_ Ht]|[_ (a & b & E)]].
  - rewrite Ht. intros [].
  - intros H. apply Hls. rewrite E, !in_app_iff. tauto.
Qed.

Lemma callback_text_one_line_witness :
  In {| text := lit "a"; done := false |}
     (cb_calls (feed [lit "data: a" ++ [LF] ++ lit "data: b" ++ [LF]] ctx_empty)) /\
  ~ In LF (text {| text := lit "a"; done := false |}).
Proof.
  assert (Hin : In {| text := lit "a"; done := false |}
     (cb_calls (feed [lit "data: a" ++ [LF] ++ lit "data: b" ++ [LF]] ctx_empty)))
    by (left; reflexivity).
  split; [exact Hin|].
  apply (callback_text_one_line [lit "data: a" ++ [LF] ++ lit "data: b" ++ [LF]]).
  - repeat constructor.
  - exact Hin.
Defined.
